(** * Optimizer step fused into the backward pass

    A shallow embedding of
    [intermediate_source/optimizer_step_in_backward_tutorial.py].

    The script is a sequence of calls into PyTorch.  The framework is
    taken as an interface ([Torch]): the tensor contents, the numerical
    update rule of Adam and the gradients that autograd produces are
    abstract, while the control flow of the script (which call is made,
    on which object, in which order, and what each call reads and
    writes in the store) is written out and is what the theorems are
    about. *)

From stdpp Require Import gmap strings list fin_maps.

(** ** Object identities

    Python keys [optimizer_dict] by the identity of the parameter
    tensor ([Tensor.__hash__] is [id]), and [Adam] instances are heap
    objects.  Both are references into a store. *)

Abbreviation PId := nat (only parsing).
Abbreviation OId := nat (only parsing).

(** The callbacks that can be registered with
    [Tensor.register_post_accumulate_grad_hook].  The script registers
    a single one, [optimizer_hook]. *)
Inductive Hook := OptimizerHook.

Inductive Exn := KeyError | RuntimeError | ValueError.

(** The framework calls that the script and the autograd engine make,
    in the order they happen. *)
Inductive Event :=
  | EvRand (shape : list nat)               (* torch.rand(shape).cuda() *)
  | EvForward                               (* model.forward(fake_image) *)
  | EvBackward                              (* loss.sum().backward() is entered *)
  | EvAccumulate (p : PId)                  (* the engine accumulates p.grad *)
  | EvGetItem (p : PId)                     (* optimizer_dict[p] *)
  | EvStep (o : OId)                        (* o.step() *)
  | EvZeroGrad (o : OId)                    (* o.zero_grad() *)
  | EvNewAdam (o : OId) (ps : list PId) (foreach : option bool)
                                            (* o = torch.optim.Adam(ps, foreach=...) *)
  | EvRegisterHook (p : PId)                (* p.register_post_accumulate_grad_hook *)
  | EvDel (o : OId)                         (* del optimizer *)
  | EvRecordHistory (enabled : option string) (* torch.cuda.memory._record_memory_history *)
  | EvSnapshot                              (* torch.cuda.memory._snapshot() *)
  | EvDump (file : string).                 (* open(file, "wb"); dump(s, f) *)

Global Instance Hook_eq_dec : EqDecision Hook.
Proof. solve_decision. Defined.
Global Instance Exn_eq_dec : EqDecision Exn.
Proof. solve_decision. Defined.
Global Instance Event_eq_dec : EqDecision Event.
Proof. solve_decision. Defined.

(** ** The framework interface *)
Class Torch := {
  (** contents of a tensor, of a gradient, of Adam's per-parameter
      state ([step], [exp_avg], [exp_avg_sq]) and of an input batch *)
  Val : Type;
  Grad : Type;
  OptState : Type;
  Batch : Type;
  (** one record of the CUDA allocator's history *)
  MemEvent : Type;
  (** [p.grad += g], what the [AccumulateGrad] node does when a
      gradient is already there *)
  grad_add : Grad → Grad → Grad;
  (** Adam's state for a parameter is created on the first step that
      sees a gradient for it *)
  adam_init : OptState;
  (** Adam's rule for one parameter: from its state, its values and
      its gradient to its new values and state.  The rule has no term
      that mixes parameters. *)
  adam_update : OptState → Val → Grad → Val * OptState;
  (** what [torch.rand] returns on its n-th call *)
  rand_src : nat → Batch;
  (** [model.forward] followed by [.sum()]: from the batch and the
      parameter values at the time of the forward pass, the gradients
      which the backward pass will deliver to the leaves, in the order
      in which the engine reaches them *)
  autograd : Batch → gmap PId Val → list (PId * Grad);
  (** the allocator records that a framework call leaves in the
      history while recording is on *)
  allocs : Event → list MemEvent;
}.

(** ** The store *)

Record Tensor `{T : Torch} := mkTensor {
  data : Val;
  grad : option Grad;                 (* [None] is Python's [p.grad is None] *)
  requires_grad : bool;
  post_acc_hooks : list Hook;
}.
Global Arguments mkTensor {_} _ _ _ _.

(** An instance of [torch.optim.Adam]: the parameters of its (single)
    parameter group and its per-parameter state. *)
Record Adam `{T : Torch} := mkAdam {
  params : list PId;
  foreach : option bool;              (* [None] is the default *)
  state : gmap PId OptState;
}.
Global Arguments mkAdam {_} _ _ _.

Record World `{T : Torch} := mkWorld {
  tensors : gmap PId Tensor;
  optims : gmap OId Adam;
  optimizer_dict : gmap PId OId;      (* the global of line 175 *)
  rng_pos : nat;                      (* calls to torch.rand so far *)
  recording : bool;
  history : list MemEvent;
  files : gmap string (list MemEvent);
  trace : list Event;
}.
Global Arguments mkWorld {_} _ _ _ _ _ _ _ _.

Section Embedding.
Context `{T : Torch}.

Definition set_tensors (f : gmap PId Tensor → gmap PId Tensor) (w : World) : World :=
  mkWorld (f (tensors w)) (optims w) (optimizer_dict w) (rng_pos w)
          (recording w) (history w) (files w) (trace w).

Definition set_optims (f : gmap OId Adam → gmap OId Adam) (w : World) : World :=
  mkWorld (tensors w) (f (optims w)) (optimizer_dict w) (rng_pos w)
          (recording w) (history w) (files w) (trace w).

Definition set_optimizer_dict (d : gmap PId OId) (w : World) : World :=
  mkWorld (tensors w) (optims w) d (rng_pos w)
          (recording w) (history w) (files w) (trace w).

Definition set_rng_pos (n : nat) (w : World) : World :=
  mkWorld (tensors w) (optims w) (optimizer_dict w) n
          (recording w) (history w) (files w) (trace w).

Definition set_recording (b : bool) (w : World) : World :=
  mkWorld (tensors w) (optims w) (optimizer_dict w) (rng_pos w)
          b (history w) (files w) (trace w).

Definition set_history (h : list MemEvent) (w : World) : World :=
  mkWorld (tensors w) (optims w) (optimizer_dict w) (rng_pos w)
          (recording w) h (files w) (trace w).

Definition set_files (f : gmap string (list MemEvent) → gmap string (list MemEvent))
    (w : World) : World :=
  mkWorld (tensors w) (optims w) (optimizer_dict w) (rng_pos w)
          (recording w) (history w) (f (files w)) (trace w).

(** A framework call is appended to the trace, and to the allocator's
    history when recording is on. *)
Definition log_event (e : Event) (w : World) : World :=
  mkWorld (tensors w) (optims w) (optimizer_dict w) (rng_pos w)
          (recording w)
          (if recording w then history w ++ allocs e else history w)
          (files w) (trace w ++ [e]).

(** ** Computations: state and exceptions

    A raised exception keeps the store as it is at the time of the
    raise: Python does not roll anything back. *)
Inductive Outcome (A : Type) :=
  | Ok (a : A) (w : World)
  | Raise (e : Exn) (w : World).
Global Arguments Ok {A} a w.
Global Arguments Raise {A} e w.

Definition M (A : Type) : Type := World → Outcome A.

Definition ret {A} (a : A) : M A := λ w, Ok a w.
Definition raise {A} (e : Exn) : M A := λ w, Raise e w.
Definition bind {A B} (m : M A) (k : A → M B) : M B :=
  λ w, match m w with
       | Ok a w' => k a w'
       | Raise e w' => Raise e w'
       end.
Definition get : M World := λ w, Ok w w.
Definition modify (f : World → World) : M unit := λ w, Ok tt (f w).
Definition emit (e : Event) : M unit := modify (log_event e).

(** The store in which a computation ends, however it ends. *)
Definition final {A} (r : Outcome A) : World :=
  match r with Ok _ w => w | Raise _ w => w end.

End Embedding.

Notation "'let!' x := m 'in' k" := (bind m (λ x, k))
  (at level 10, x name, m at level 100, k at level 200, only parsing).
Notation "m >> k" := (bind m (λ _, k))
  (at level 65, right associativity, only parsing).

(** ** The framework calls the script makes *)
Section Framework.
Context `{T : Torch}.

(** [torch.rand(shape).cuda()] *)
Definition torch_rand (shape : list nat) : M Batch :=
  let! w := get in
  modify (set_rng_pos (S (rng_pos w))) >>
  emit (EvRand shape) >>
  ret (rand_src (rng_pos w)).

(** The loss that [model.forward(fake_image)] returns carries the
    graph on which [backward] will run.  Its gradients are those of
    the parameter values read by the forward pass. *)
Definition Loss : Type := list (PId * Grad).

Definition forward (model : list PId) (fake_image : Batch) : M Loss :=
  let! w := get in
  emit EvForward >>
  ret (autograd fake_image (data <$> tensors w)).

(** The [AccumulateGrad] node of a leaf: [p.grad = g] when there is
    no gradient yet, [p.grad += g] otherwise. *)
Definition accumulated (g0 : option Grad) (g : Grad) : Grad :=
  match g0 with None => g | Some g0 => grad_add g0 g end.

Definition add_grad (g : Grad) (t : Tensor) : Tensor :=
  mkTensor (data t) (Some (accumulated (grad t) g)) (requires_grad t) (post_acc_hooks t).

Definition accumulate_grad (p : PId) (g : Grad) : M unit :=
  emit (EvAccumulate p) >>
  modify (set_tensors (alter (add_grad g) p)).

(** [torch.optim.Adam(ps, foreach=fe)]: a new optimizer object with
    one parameter group and no state; an empty parameter list is
    refused. *)
Definition Adam_new (ps : list PId) (fe : option bool) : M OId :=
  match ps with
  | [] => raise ValueError
  | _ =>
    let! w := get in
    let o := fresh (dom (optims w)) in
    modify (set_optims (<[o := mkAdam ps fe ∅]>)) >>
    emit (EvNewAdam o ps fe) >>
    ret o
  end.

Definition params_of (w : World) (o : OId) : list PId :=
  match optims w !! o with Some opt => params opt | None => [] end.

(** [Adam.step] on one parameter of the group: a parameter without a
    gradient is skipped; otherwise its values and its state are
    replaced by what the update rule gives. *)
Definition step_param (o : OId) (w : World) (p : PId) : World :=
  match optims w !! o, tensors w !! p with
  | Some opt, Some t =>
    match grad t with
    | None => w
    | Some g =>
      let r := adam_update (default adam_init (state opt !! p)) (data t) g in
      set_optims (<[o := mkAdam (params opt) (foreach opt) (<[p := r.2]> (state opt))]>)
        (set_tensors (<[p := mkTensor r.1 (grad t) (requires_grad t) (post_acc_hooks t)]>) w)
    end
  | _, _ => w
  end.

Definition step_world (o : OId) (w : World) : World :=
  foldl (step_param o) w (params_of w o).

Definition Adam_step (o : OId) : M unit :=
  emit (EvStep o) >>
  modify (step_world o).

(** [Optimizer.zero_grad()] ([set_to_none=True], the default): the
    gradient of every parameter of the group becomes [None]. *)
Definition clear_grad (t : Tensor) : Tensor :=
  mkTensor (data t) None (requires_grad t) (post_acc_hooks t).

Definition zero_grad_world (o : OId) (w : World) : World :=
  set_tensors (λ ts, foldl (λ ts p, alter clear_grad p ts) ts (params_of w o)) w.

Definition Adam_zero_grad (o : OId) : M unit :=
  emit (EvZeroGrad o) >>
  modify (zero_grad_world o).

(** [p.register_post_accumulate_grad_hook(h)]: refused on a tensor
    that does not require a gradient. *)
Definition add_hook (h : Hook) (t : Tensor) : Tensor :=
  mkTensor (data t) (grad t) (requires_grad t) (post_acc_hooks t ++ [h]).

Definition register_post_accumulate_grad_hook (p : PId) (h : Hook) : M unit :=
  let! w := get in
  match tensors w !! p with
  | Some t =>
    if requires_grad t
    then modify (set_tensors (<[p := add_hook h t]>)) >> emit (EvRegisterHook p)
    else raise RuntimeError
  | None => raise RuntimeError
  end.

(** [optimizer_dict[p]] *)
Definition optimizer_dict_getitem (p : PId) : M OId :=
  emit (EvGetItem p) >>
  let! w := get in
  match optimizer_dict w !! p with
  | Some o => ret o
  | None => raise KeyError
  end.


(** [torch.cuda.memory._record_memory_history(enabled=...)]: the
    history is created when recording starts; stopping leaves it as
    it is. *)
Definition record_memory_history (enabled : option string) : M unit :=
  emit (EvRecordHistory enabled) >>
  match enabled with
  | Some _ => modify (set_recording true) >> modify (set_history [])
  | None => modify (set_recording false)
  end.

(** [torch.cuda.memory._snapshot()] returns the history as it is at
    the time of the call. *)
Definition snapshot : M (list MemEvent) :=
  emit EvSnapshot >>
  let! w := get in
  ret (history w).

(** [with open(file, "wb") as f: dump(s, f)] *)
Definition dump (s : list MemEvent) (file : string) : M unit :=
  emit (EvDump file) >>
  modify (set_files (<[file := s]>)).

(** [for _ in range(n): body] *)
Fixpoint for_range (n : nat) (body : M unit) : M unit :=
  match n with
  | 0 => ret tt
  | S n => body >> for_range n body
  end.

End Framework.

(** ** The script *)
Section Script.
Context `{T : Torch}.

Definition IMAGE_SIZE : nat := 224.

(** Lines 178-180.  The dictionary is indexed once for each of the
    two calls. *)
Definition optimizer_hook (parameter : PId) : M unit :=
  (let! o := optimizer_dict_getitem parameter in Adam_step o) >>
  (let! o := optimizer_dict_getitem parameter in Adam_zero_grad o).

Definition call_hook (h : Hook) (p : PId) : M unit :=
  match h with
  | OptimizerHook => optimizer_hook p
  end.

Fixpoint run_hooks (hs : list Hook) (p : PId) : M unit :=
  match hs with
  | [] => ret tt
  | h :: hs => call_hook h p >> run_hooks hs p
  end.

Definition hooks_of (w : World) (p : PId) : list Hook :=
  match tensors w !! p with Some t => post_acc_hooks t | None => [] end.

(** The autograd engine: for each leaf it reaches, it accumulates the
    gradient into [p.grad] and then calls the hooks registered on [p],
    before it goes on to the next leaf.  The gradients are those of
    the graph built by the forward pass: the hooks of a leaf run after
    every node that read the leaf, so a hook that changes [p] does not
    change a gradient that is still to be delivered. *)
Fixpoint engine (graph : Loss) : M unit :=
  match graph with
  | [] => ret tt
  | (p, g) :: rest =>
    accumulate_grad p g >>
    (let! w := get in run_hooks (hooks_of w p) p) >>
    engine rest
  end.

(** [loss.sum().backward()] *)
Definition backward (loss : Loss) : M unit :=
  emit EvBackward >>
  engine loss.

(** Lines 48-58: the first [train]. *)
Definition train (model : list PId) (optimizer : OId) : M unit :=
  let! fake_image := torch_rand [1; 3; IMAGE_SIZE; IMAGE_SIZE] in
  let! loss := forward model fake_image in
  backward loss >>
  Adam_step optimizer >>
  Adam_zero_grad optimizer.

(** Lines 188-198: the second [train], which replaces the first. *)
Definition train_fused (model : list PId) : M unit :=
  let! fake_image := torch_rand [1; 3; IMAGE_SIZE; IMAGE_SIZE] in
  let! loss := forward model fake_image in
  backward loss.

(** Line 175: [{p: Adam([p], foreach=False) for p in model.parameters()}];
    a key met again takes the newer optimizer. *)
Fixpoint dict_comprehension (ps : list PId) (d : gmap PId OId) : M (gmap PId OId) :=
  match ps with
  | [] => ret d
  | p :: ps =>
    let! o := Adam_new [p] (Some false) in
    dict_comprehension ps (<[p := o]> d)
  end.

Definition build_optimizer_dict (model : list PId) : M unit :=
  let! d := dict_comprehension model ∅ in
  modify (set_optimizer_dict d).

(** Lines 183-184. *)
Fixpoint register_hooks (ps : list PId) : M unit :=
  match ps with
  | [] => ret tt
  | p :: ps =>
    register_post_accumulate_grad_hook p OptimizerHook >>
    register_hooks ps
  end.

(** Lines 80-92: the first measured window. *)
Definition baseline_window (model : list PId) (optimizer : OId) : M unit :=
  record_memory_history (Some "all") >>
  for_range 3 (train model optimizer) >>
  (let! s := snapshot in dump s "snapshot.pickle") >>
  record_memory_history None.

(** Lines 219-231: the second measured window. *)
Definition fused_window (model : list PId) : M unit :=
  record_memory_history (Some "all") >>
  for_range 3 (train_fused model) >>
  (let! s := snapshot in dump s "snapshot-opt-in-bwd.pickle") >>
  record_memory_history None.

(** Lines 175-184: what is set up before the fused loop runs. *)
Definition fused_setup (model : list PId) : M unit :=
  build_optimizer_dict model >>
  register_hooks model.


End Script.

(** ** Properties of a store *)
Section Predicates.
Context `{T : Torch}.

(** [p] is a key of the dictionary and the optimizer stored under it
    has [p] as its only parameter. *)
Definition dedicated (w : World) (p : PId) : Prop :=
  match optimizer_dict w !! p with
  | Some o => params_of w o = [p]
  | None => False
  end.

(** [optimizer_hook] is the one hook registered on [p]. *)
Definition hooked (w : World) (p : PId) : Prop :=
  hooks_of w p = [OptimizerHook].

(** No two parameters of the model share an optimizer. *)
Definition unshared (model : list PId) (w : World) : Prop :=
  Forall (λ p, Forall (λ q,
    p ≠ q → optimizer_dict w !! p ≠ optimizer_dict w !! q) model) model.

(** The store as lines 175-184 leave it. *)
Definition fused_ready (model : list PId) (w : World) : Prop :=
  Forall (dedicated w) model ∧ Forall (hooked w) model ∧ unshared model w.

(** No hook is registered on any tensor: the store before line 183. *)
Definition no_hooks (w : World) : Prop :=
  map_Forall (λ _ t, post_acc_hooks t = []) (tensors w).

Global Instance no_hooks_dec w : Decision (no_hooks w).
Proof. unfold no_hooks. apply _. Defined.

Definition trainable (w : World) (p : PId) : Prop :=
  requires_grad <$> tensors w !! p = Some true.

Global Instance trainable_dec w p : Decision (trainable w p).
Proof. unfold trainable. apply _. Defined.


(** The state that the optimizer stored under [p] holds for [p]. *)
Definition dedicated_state (w : World) (p : PId) : OptState :=
  match optimizer_dict w !! p with
  | Some o =>
    match optims w !! o with
    | Some opt => default adam_init (state opt !! p)
    | None => adam_init
    end
  | None => adam_init
  end.

(** The state that optimizer [o] holds for [p]. *)
Definition state_in (w : World) (o : OId) (p : PId) : OptState :=
  match optims w !! o with
  | Some opt => default adam_init (state opt !! p)
  | None => adam_init
  end.

(** One application of the update rule to a tensor whose accumulated
    gradient is [g], followed by the clearing of the gradient. *)
Definition updated (s : OptState) (g : Grad) (t : Tensor) : Tensor :=
  mkTensor (adam_update s (data t) g).1 None (requires_grad t) (post_acc_hooks t).

End Predicates.

(** ** A small instance

    Two scalar parameters, gradient descent with a step counter as the
    update rule, and an allocator that records every call. *)
Module Demo.

Definition torch : Torch := {|
  Val := Z;
  Grad := Z;
  OptState := nat;
  Batch := Z;
  MemEvent := Event;
  grad_add := Z.add;
  adam_init := 0;
  adam_update := λ s v g, ((v - g)%Z, S s);
  rand_src := λ n, Z.of_nat (S n);
  autograd := λ b ds, [(2, (b + default 0%Z (ds !! 2%nat))%Z); (1, b)];
  allocs := λ e, [e];
|}.

Definition model : list PId := [1; 2].

Definition leaf (v : Z) : @Tensor torch := mkTensor (T := torch) v None true [].

Definition w0 : @World torch :=
  mkWorld (T := torch) (<[1 := leaf 10]> (<[2 := leaf 20]> ∅)) ∅ ∅ 0 false [] ∅ [].

(** The store after line 39. *)
Definition w_baseline : @World torch := final (Adam_new (T := torch) model None w0).

(** The store after lines 175-184. *)
Definition w_fused : @World torch := final (fused_setup (T := torch) model w0).

End Demo.

(** Two further stores of the small instance: one in which the second
    parameter is frozen, and one in which the hooks are registered
    while the dictionary has not been built. *)
Module Edge.



Definition w_hooked_only : @World Demo.torch :=
  final (register_hooks (T := Demo.torch) Demo.model Demo.w0).

End Edge.

(** * Properties *)

(** Several framework calls logged in a row. *)
Definition log_events `{T : Torch} (es : list Event) (w : World) : World :=
  foldl (λ w e, log_event e w) w es.

(** What a call of the hook does to the store when the dictionary
    gives optimizer [o]: the step, then the clearing. *)
Definition hook_effect `{T : Torch} (o : OId) (w : World) : World :=
  zero_grad_world o (step_world o w).

(** What the engine does to the store at a leaf [p] that carries
    [optimizer_hook], when the dictionary gives optimizer [o]. *)
Definition leaf_effect `{T : Torch} (p : PId) (g : Grad) (o : OId) (w : World) : World :=
  hook_effect o (set_tensors (alter (add_grad g) p) w).

Definition leaf_events (p : PId) (o : OId) : list Event :=
  [EvAccumulate p; EvGetItem p; EvStep o; EvGetItem p; EvZeroGrad o].

(** What the engine does to the tensors when no hook is registered:
    it only accumulates. *)
Definition accumulate_all `{T : Torch} (graph : Loss)
    (ts : gmap PId Tensor) : gmap PId Tensor :=
  foldl (λ ts pg, alter (add_grad pg.2) pg.1 ts) ts graph.

(** What [Adam.step] makes of a tensor of the group and of the state
    held for it. *)
Definition stepped `{T : Torch} (s : OptState) (t : Tensor) : Tensor :=
  match grad t with
  | Some g => mkTensor (adam_update s (data t) g).1 (grad t) (requires_grad t) (post_acc_hooks t)
  | None => t
  end.

Definition stepped_state `{T : Torch} (s : OptState) (t : Tensor) : OptState :=
  match grad t with
  | Some g => (adam_update s (data t) g).2
  | None => s
  end.

(** What an iteration of the baseline loop does to the store, the
    trace and the position in the input sequence apart: the engine
    accumulates, the shared optimizer steps, then clears. *)
Definition baseline_effect `{T : Torch} (graph : Loss) (o : OId) (w : World) : World :=
  zero_grad_world o (step_world o (set_tensors (accumulate_all graph) w)).

(** The store right after [_record_memory_history(enabled='all')]. *)
Definition started `{T : Torch} (w : World) : World :=
  set_history [] (set_recording true (log_event (EvRecordHistory (Some "all")) w)).

(** What training never changes in a tensor: whether it requires a
    gradient and which hooks it carries. *)
Definition shape `{T : Torch} (w : World) : gmap PId (bool * list Hook) :=
  (λ t, (requires_grad t, post_acc_hooks t)) <$> tensors w.

(** Which optimizers there are, over which parameters and with which
    [foreach]: what [step] never changes. *)
Definition roster `{T : Torch} (w : World) : gmap OId (list PId * option bool) :=
  (λ a, (params a, foreach a)) <$> optims w.

(** Every tensor that carries a hook is a key of the dictionary. *)
Definition hooks_safe `{T : Torch} (w : World) : Prop :=
  map_Forall (λ p t, post_acc_hooks t ≠ [] → is_Some (optimizer_dict w !! p)) (tensors w).

Global Instance hooks_safe_dec `{T : Torch} w : Decision (hooks_safe w).
Proof. unfold hooks_safe. apply _. Defined.

(** A computation that leaves a component [f] of the store as it
    found it, however it ends. *)
Definition keeps `{T : Torch} {A X} (f : World → X) (m : M A) : Prop :=
  ∀ w, f (final (m w)) = f w.

(** The values and the gradient of every tensor. *)
Definition view `{T : Torch} (w : World) : gmap PId (Val * option Grad) :=
  (λ t, (data t, grad t)) <$> tensors w.

Definition grad_of `{T : Torch} (w : World) (p : PId) : option Grad :=
  tensors w !! p ≫= grad.

(** A store of the baseline loop and a store of the fused loop that
    are at the same point of training: same values and gradients, no
    gradient pending on a parameter of the model, same position in the
    input sequence, and the shared optimizer holds for each parameter
    the state that the parameter's own optimizer holds in the fused
    store.  The baseline store has no hooks, the fused store has the
    dictionary and the hooks. *)
Definition in_step `{T : Torch} (model : list PId) (optimizer : OId)
    (wb wf : World) : Prop :=
  view wb = view wf ∧
  Forall (λ p, grad_of wb p = None) model ∧
  rng_pos wb = rng_pos wf ∧
  no_hooks wb ∧
  is_Some (optims wb !! optimizer) ∧
  params_of wb optimizer = model ∧
  fused_ready model wf ∧
  Forall (λ p, state_in wb optimizer p = dedicated_state wf p) model.

Section Basics.
Context `{T : Torch}.

Lemma bind_Ok {A B} (m : M A) (k : A → M B) w a w' :
  m w = Ok a w' → bind m k w = k a w'.
Proof. intros E. unfold bind. by rewrite E. Qed.


Lemma trace_log_events es w : trace (log_events es w) = trace w ++ es.
Proof.
  revert w. induction es as [|e es IH]; intros w; simpl.
  - by rewrite app_nil_r.
  - rewrite IH. simpl. by rewrite <- app_assoc.
Qed.

Lemma log_events_app es1 es2 w :
  log_events (es1 ++ es2) w = log_events es2 (log_events es1 w).
Proof. unfold log_events. apply foldl_app. Qed.

Lemma tensors_log_events es w : tensors (log_events es w) = tensors w.
Proof. revert w. induction es as [|e es IH]; intros w; simpl; [done|]. by rewrite IH. Qed.

Lemma optims_log_events es w : optims (log_events es w) = optims w.
Proof. revert w. induction es as [|e es IH]; intros w; simpl; [done|]. by rewrite IH. Qed.

Lemma dict_log_events es w : optimizer_dict (log_events es w) = optimizer_dict w.
Proof. revert w. induction es as [|e es IH]; intros w; simpl; [done|]. by rewrite IH. Qed.

Lemma rng_log_events es w : rng_pos (log_events es w) = rng_pos w.
Proof. revert w. induction es as [|e es IH]; intros w; simpl; [done|]. by rewrite IH. Qed.



(** *** [Adam.step] *)

Lemma step_param_log e o w p :
  step_param o (log_event e w) p = log_event e (step_param o w p).
Proof.
  unfold step_param. simpl.
  destruct (optims w !! o) as [opt|]; [|done].
  destruct (tensors w !! p) as [t|]; [|done].
  by destruct (grad t).
Qed.

Lemma foldl_step_param_log e o ps w :
  foldl (step_param o) (log_event e w) ps = log_event e (foldl (step_param o) w ps).
Proof.
  revert w. induction ps as [|p ps IH]; intros w; simpl; [done|].
  by rewrite step_param_log, IH.
Qed.

Lemma step_world_log e o w :
  step_world o (log_event e w) = log_event e (step_world o w).
Proof. unfold step_world. apply foldl_step_param_log. Qed.

Lemma zero_grad_world_log e o w :
  zero_grad_world o (log_event e w) = log_event e (zero_grad_world o w).
Proof. reflexivity. Qed.

(** The step touches nothing but tensors and optimizers. *)
Lemma step_param_frame o w p :
  optimizer_dict (step_param o w p) = optimizer_dict w ∧
  rng_pos (step_param o w p) = rng_pos w ∧
  recording (step_param o w p) = recording w ∧
  history (step_param o w p) = history w ∧
  files (step_param o w p) = files w ∧
  trace (step_param o w p) = trace w.
Proof.
  unfold step_param.
  destruct (optims w !! o) as [opt|]; [|done].
  destruct (tensors w !! p) as [t|]; [|done].
  by destruct (grad t).
Qed.

Lemma step_world_frame o w :
  optimizer_dict (step_world o w) = optimizer_dict w ∧
  rng_pos (step_world o w) = rng_pos w ∧
  recording (step_world o w) = recording w ∧
  history (step_world o w) = history w ∧
  files (step_world o w) = files w ∧
  trace (step_world o w) = trace w.
Proof.
  unfold step_world. generalize (params_of w o). intros ps.
  revert w. induction ps as [|p ps IH]; intros w; simpl; [done|].
  destruct (IH (step_param o w p)) as (-> & -> & -> & -> & -> & ->).
  apply step_param_frame.
Qed.

Lemma dict_step_world o w : optimizer_dict (step_world o w) = optimizer_dict w.
Proof. apply step_world_frame. Qed.

(** The step keeps the parameter list of every optimizer. *)
Lemma params_of_step_param o w p o' :
  params_of (step_param o w p) o' = params_of w o'.
Proof.
  unfold step_param.
  destruct (optims w !! o) as [opt|] eqn:Eo; [|done].
  destruct (tensors w !! p) as [t|]; [|done].
  destruct (grad t); [|done].
  unfold params_of. simpl.
  destruct (decide (o = o')) as [<-|Hne].
  - by rewrite lookup_insert_eq, Eo.
  - by rewrite lookup_insert_ne.
Qed.

Lemma params_of_foldl_step o ps w o' :
  params_of (foldl (step_param o) w ps) o' = params_of w o'.
Proof.
  revert w. induction ps as [|p ps IH]; intros w; simpl; [done|].
  by rewrite IH, params_of_step_param.
Qed.

Lemma params_of_step_world o w o' :
  params_of (step_world o w) o' = params_of w o'.
Proof. unfold step_world. apply params_of_foldl_step. Qed.

Lemma params_of_log_events es w o : params_of (log_events es w) o = params_of w o.
Proof. unfold params_of. by rewrite optims_log_events. Qed.

(** *** The hook, when the key is there and when it is not *)

Lemma optimizer_hook_found p o w :
  optimizer_dict w !! p = Some o →
  optimizer_hook p w =
    Ok tt (log_events [EvGetItem p; EvStep o; EvGetItem p; EvZeroGrad o] (hook_effect o w)).
Proof.
  intros Hd.
  unfold optimizer_hook, optimizer_dict_getitem, Adam_step, Adam_zero_grad.
  unfold bind, emit, modify, get, ret. simpl. rewrite Hd. simpl.
  rewrite dict_step_world. simpl. rewrite Hd. simpl.
  unfold hook_effect.
  by rewrite !zero_grad_world_log, !step_world_log.
Qed.

Lemma optimizer_hook_missing p w :
  optimizer_dict w !! p = None →
  optimizer_hook p w = Raise KeyError (log_event (EvGetItem p) w).
Proof.
  intros Hd.
  unfold optimizer_hook, optimizer_dict_getitem.
  unfold bind, emit, modify, get, raise. simpl. by rewrite Hd.
Qed.

End Basics.

(** ** What one call of the hook touches *)
Section HookFrame.
Context `{T : Torch}.

Lemma step_param_tensor_other o w p q :
  q ≠ p → tensors (step_param o w p) !! q = tensors w !! q.
Proof.
  intros Hne. unfold step_param.
  destruct (optims w !! o) as [opt|]; [|done].
  destruct (tensors w !! p) as [t|]; [|done].
  destruct (grad t); [|done].
  simpl. by rewrite lookup_insert_ne.
Qed.

Lemma step_param_optim_other o w p o' :
  o' ≠ o → optims (step_param o w p) !! o' = optims w !! o'.
Proof.
  intros Hne. unfold step_param.
  destruct (optims w !! o) as [opt|]; [|done].
  destruct (tensors w !! p) as [t|]; [|done].
  destruct (grad t); [|done].
  simpl. by rewrite lookup_insert_ne.
Qed.

(** The step on [p] when [p] holds a gradient. *)
Lemma step_param_tensor o w p opt t g :
  optims w !! o = Some opt → tensors w !! p = Some t → grad t = Some g →
  tensors (step_param o w p) !! p =
    Some (mkTensor (adam_update (state_in w o p) (data t) g).1 (Some g)
                   (requires_grad t) (post_acc_hooks t)) ∧
  optims (step_param o w p) !! o =
    Some (mkAdam (params opt) (foreach opt)
                 (<[p := (adam_update (state_in w o p) (data t) g).2]> (state opt))).
Proof.
  intros Ho Ht Hg. unfold step_param, state_in. rewrite Ho, Ht, Hg. simpl.
  by rewrite !lookup_insert_eq.
Qed.

Lemma hook_effect_dedicated o p w :
  params_of w o = [p] →
  hook_effect o w = set_tensors (alter clear_grad p) (step_param o w p).
Proof.
  intros Hp. unfold hook_effect, zero_grad_world.
  rewrite params_of_step_world, Hp. unfold step_world. by rewrite Hp.
Qed.

Lemma hook_effect_tensor_other o p q w :
  params_of w o = [p] → q ≠ p →
  tensors (hook_effect o w) !! q = tensors w !! q.
Proof.
  intros Hp Hne. rewrite (hook_effect_dedicated o p w Hp). simpl.
  rewrite lookup_alter_ne by done. by apply step_param_tensor_other.
Qed.

Lemma hook_effect_optim_other o p o' w :
  params_of w o = [p] → o' ≠ o →
  optims (hook_effect o w) !! o' = optims w !! o'.
Proof.
  intros Hp Hne. rewrite (hook_effect_dedicated o p w Hp). simpl.
  by apply step_param_optim_other.
Qed.

Lemma hook_effect_tensor o p w t g :
  params_of w o = [p] → tensors w !! p = Some t → grad t = Some g →
  tensors (hook_effect o w) !! p = Some (updated (state_in w o p) g t).
Proof.
  intros Hp Ht Hg. rewrite (hook_effect_dedicated o p w Hp). simpl.
  assert (∃ opt, optims w !! o = Some opt) as [opt Ho].
  { unfold params_of in Hp. destruct (optims w !! o); [eauto|done]. }
  destruct (step_param_tensor o w p opt t g Ho Ht Hg) as [E _].
  rewrite lookup_alter_eq, E. done.
Qed.

Lemma hook_effect_frame o w :
  optimizer_dict (hook_effect o w) = optimizer_dict w ∧
  rng_pos (hook_effect o w) = rng_pos w ∧
  recording (hook_effect o w) = recording w ∧
  history (hook_effect o w) = history w ∧
  files (hook_effect o w) = files w ∧
  trace (hook_effect o w) = trace w.
Proof. unfold hook_effect, zero_grad_world. simpl. apply step_world_frame. Qed.

Lemma params_of_hook_effect o w o' :
  params_of (hook_effect o w) o' = params_of w o'.
Proof. unfold hook_effect, zero_grad_world, params_of. simpl. apply params_of_step_world. Qed.

(** Neither the step nor the clearing changes which hooks a tensor
    carries or whether it requires a gradient. *)
Lemma step_param_hooks o w p q :
  hooks_of (step_param o w p) q = hooks_of w q.
Proof.
  unfold step_param.
  destruct (optims w !! o) as [opt|]; [|done].
  destruct (tensors w !! p) as [t|] eqn:Et; [|done].
  destruct (grad t); [|done].
  unfold hooks_of. simpl.
  destruct (decide (p = q)) as [<-|Hne].
  - by rewrite lookup_insert_eq, Et.
  - by rewrite lookup_insert_ne.
Qed.

Lemma hooks_of_alter_clear p ts q w :
  tensors w = alter clear_grad p ts →
  hooks_of w q = match ts !! q with Some t => post_acc_hooks t | None => [] end.
Proof.
  intros E. unfold hooks_of. rewrite E.
  destruct (decide (p = q)) as [<-|Hne].
  - rewrite lookup_alter_eq. by destruct (ts !! p).
  - by rewrite lookup_alter_ne.
Qed.

Lemma hook_effect_hooks o p w q :
  params_of w o = [p] → hooks_of (hook_effect o w) q = hooks_of w q.
Proof.
  intros Hp. rewrite (hook_effect_dedicated o p w Hp).
  erewrite hooks_of_alter_clear; [|reflexivity].
  apply (step_param_hooks o w p q).
Qed.

End HookFrame.

(** ** The engine on a store prepared by lines 175-184 *)
Section FusedEngine.
Context `{T : Torch}.

Lemma hook_effect_log e o w :
  hook_effect o (log_event e w) = log_event e (hook_effect o w).
Proof. unfold hook_effect. by rewrite step_world_log, zero_grad_world_log. Qed.

Lemma hooks_of_add_grad g p w q :
  hooks_of (set_tensors (alter (add_grad g) p) w) q = hooks_of w q.
Proof.
  unfold hooks_of. simpl.
  destruct (decide (p = q)) as [<-|Hne].
  - rewrite lookup_alter_eq. by destruct (tensors w !! p).
  - by rewrite lookup_alter_ne.
Qed.

Lemma engine_cons_fused p g rest o w :
  optimizer_dict w !! p = Some o → hooks_of w p = [OptimizerHook] →
  engine ((p, g) :: rest) w = engine rest (log_events (leaf_events p o) (leaf_effect p g o w)).
Proof.
  intros Hd Hh. simpl engine.
  unfold accumulate_grad, emit, modify, get.
  unfold bind at 1. unfold bind at 1. simpl.
  unfold bind at 1. unfold bind at 1.
  assert (hooks_of (set_tensors (alter (add_grad g) p) (log_event (EvAccumulate p) w)) p
          = [OptimizerHook]) as ->.
  { rewrite hooks_of_add_grad. exact Hh. }
  simpl run_hooks. unfold bind at 1.
  rewrite (optimizer_hook_found p o) by exact Hd.
  unfold ret, leaf_effect. simpl. f_equal.
  change (set_tensors (alter (add_grad g) p) (log_event (EvAccumulate p) w))
    with (log_event (EvAccumulate p) (set_tensors (alter (add_grad g) p) w)).
  by rewrite hook_effect_log.
Qed.

Lemma fused_ready_ext model w w' :
  optimizer_dict w' = optimizer_dict w →
  (∀ o, params_of w' o = params_of w o) →
  (∀ q, hooks_of w' q = hooks_of w q) →
  fused_ready model w → fused_ready model w'.
Proof.
  intros Hd Hp Hh (Hded & Hhk & Hun). repeat split.
  - eapply Forall_impl; [exact Hded|]. intros p. unfold dedicated.
    rewrite Hd. destruct (optimizer_dict w !! p); [|done]. by rewrite Hp.
  - eapply Forall_impl; [exact Hhk|]. intros p. unfold hooked. by rewrite Hh.
  - unfold unshared. by rewrite Hd.
Qed.

Lemma fused_ready_dedicated model w p :
  fused_ready model w → p ∈ model →
  ∃ o, optimizer_dict w !! p = Some o ∧ params_of w o = [p].
Proof.
  intros (Hded & _ & _) Hin.
  rewrite Forall_forall in Hded. specialize (Hded p Hin).
  unfold dedicated in Hded. destruct (optimizer_dict w !! p) as [o|]; [eauto|done].
Qed.

Lemma fused_ready_hooked model w p :
  fused_ready model w → p ∈ model → hooks_of w p = [OptimizerHook].
Proof.
  intros (_ & Hhk & _) Hin. rewrite Forall_forall in Hhk. by apply Hhk.
Qed.

Lemma fused_ready_unshared model w p q :
  fused_ready model w → p ∈ model → q ∈ model → p ≠ q →
  optimizer_dict w !! p ≠ optimizer_dict w !! q.
Proof.
  intros (_ & _ & Hun) Hp Hq. unfold unshared in Hun.
  rewrite Forall_forall in Hun. specialize (Hun p Hp).
  rewrite Forall_forall in Hun. by apply Hun.
Qed.

Lemma dedicated_state_eq w p o :
  optimizer_dict w !! p = Some o → dedicated_state w p = state_in w o p.
Proof. intros E. unfold dedicated_state, state_in. by rewrite E. Qed.

(** The store after the engine has been at leaf [p]. *)
Lemma leaf_effect_spec p g o w :
  params_of w o = [p] →
  let w1 := log_events (leaf_events p o) (leaf_effect p g o w) in
  optimizer_dict w1 = optimizer_dict w ∧
  rng_pos w1 = rng_pos w ∧
  (∀ o', params_of w1 o' = params_of w o') ∧
  (∀ q, hooks_of w1 q = hooks_of w q) ∧
  (∀ q, q ≠ p → tensors w1 !! q = tensors w !! q) ∧
  (∀ o', o' ≠ o → optims w1 !! o' = optims w !! o') ∧
  (∀ t, tensors w !! p = Some t →
     tensors w1 !! p = Some (updated (state_in w o p) (accumulated (grad t) g) t) ∧
     state_in w1 o p = (adam_update (state_in w o p) (data t) (accumulated (grad t) g)).2).
Proof.
  intros Hp w1. subst w1. unfold leaf_effect.
  set (w2 := set_tensors (alter (add_grad g) p) w).
  assert (params_of w2 o = [p]) as Hp2 by exact Hp.
  rewrite dict_log_events, rng_log_events, tensors_log_events, optims_log_events.
  destruct (hook_effect_frame o w2) as (Ed & Er & _).
  repeat split.
  - by rewrite Ed.
  - by rewrite Er.
  - intros o'. by rewrite params_of_log_events, params_of_hook_effect.
  - intros q. unfold hooks_of at 1. rewrite tensors_log_events.
    fold (hooks_of (hook_effect o w2) q).
    rewrite (hook_effect_hooks o p w2 q Hp2). apply hooks_of_add_grad.
  - intros q Hne. rewrite (hook_effect_tensor_other o p q w2 Hp2 Hne).
    subst w2. simpl. by rewrite lookup_alter_ne.
  - intros o' Hne. by rewrite (hook_effect_optim_other o p o' w2 Hp2 Hne).
  - assert (tensors w2 !! p = Some (add_grad g t)) as Ht2.
    { subst w2. simpl. rewrite lookup_alter_eq. by rewrite H. }
    by rewrite (hook_effect_tensor o p w2 (add_grad g t) (accumulated (grad t) g) Hp2 Ht2 eq_refl).
  - assert (tensors w2 !! p = Some (add_grad g t)) as Ht2.
    { subst w2. simpl. rewrite lookup_alter_eq. by rewrite H. }
    assert (∃ opt, optims w !! o = Some opt) as [opt Ho].
    { unfold params_of in Hp. destruct (optims w !! o); [eauto|done]. }
    destruct (step_param_tensor o w2 p opt (add_grad g t) (accumulated (grad t) g) Ho Ht2 eq_refl)
      as [_ E].
    unfold state_in at 1. rewrite optims_log_events.
    rewrite (hook_effect_dedicated o p w2 Hp2). simpl. rewrite E. simpl.
    by rewrite lookup_insert_eq.
Qed.

(** The engine on a graph that delivers one gradient to each of
    some parameters of the model: it finishes, each of these
    parameters is updated once from the store before the pass and its
    gradient is cleared, and nothing else moves. *)
Lemma engine_fused model graph :
  NoDup graph.*1 → (∀ p, p ∈ graph.*1 → p ∈ model) →
  ∀ w, fused_ready model w →
  ∃ w', engine graph w = Ok tt w' ∧
    fused_ready model w' ∧
    optimizer_dict w' = optimizer_dict w ∧
    rng_pos w' = rng_pos w ∧
    (∀ q, q ∉ graph.*1 → tensors w' !! q = tensors w !! q) ∧
    (∀ q, q ∈ model → q ∉ graph.*1 → dedicated_state w' q = dedicated_state w q) ∧
    (∀ p g t, (p, g) ∈ graph → tensors w !! p = Some t →
       tensors w' !! p = Some (updated (dedicated_state w p) (accumulated (grad t) g) t) ∧
       dedicated_state w' p =
         (adam_update (dedicated_state w p) (data t) (accumulated (grad t) g)).2).
Proof.
  induction graph as [|[p g] rest IH]; intros Hnd Hsub w Hready.
  - exists w. split; [done|]. split; [done|]. do 4 (split; [done|]).
    intros p g t Hin. by apply elem_of_nil in Hin.
  - simpl in Hnd. apply NoDup_cons in Hnd as [Hp_rest Hnd].
    assert (p ∈ model) as Hpm by (apply Hsub; simpl; left).
    destruct (fused_ready_dedicated model w p Hready Hpm) as (o & Hd & Hpar).
    pose proof (fused_ready_hooked model w p Hready Hpm) as Hh.
    rewrite (engine_cons_fused p g rest o w Hd Hh).
    destruct (leaf_effect_spec p g o w Hpar) as (Ed & Er & Epar & Ehk & Eten & Eopt & Ep).
    set (w1 := log_events (leaf_events p o) (leaf_effect p g o w)) in *.
    assert (fused_ready model w1) as Hready1 by (by apply (fused_ready_ext model w w1)).
    destruct (IH Hnd (λ q Hq, Hsub q (list_elem_of_further _ _ _ Hq)) w1 Hready1)
      as (w' & Hrun & Hready' & Ed' & Er' & Eoth & Esoth & Edel).
    assert (∀ q, q ∈ model → q ≠ p → dedicated_state w1 q = dedicated_state w q) as Est1.
    { intros q Hqm Hne. unfold dedicated_state. rewrite Ed.
      destruct (optimizer_dict w !! q) as [oq|] eqn:Eq; [|done].
      rewrite Eopt; [done|]. intros ->.
      apply (fused_ready_unshared model w q p Hready Hqm Hpm Hne). congruence. }
    exists w'. split; [exact Hrun|]. split; [exact Hready'|].
    split; [congruence|]. split; [congruence|].
    split; [|split].
    + intros q Hq. simpl in Hq. apply not_elem_of_cons in Hq as [Hne Hq].
      rewrite (Eoth q Hq). by apply Eten.
    + intros q Hqm Hq. simpl in Hq. apply not_elem_of_cons in Hq as [Hne Hq].
      rewrite (Esoth q Hqm Hq). by apply Est1.
    + intros q g' t Hin Ht. apply elem_of_cons in Hin as [Heq|Hin].
      * injection Heq as -> ->.
        destruct (Ep t Ht) as [Et1 Es1].
        rewrite (Eoth p Hp_rest), (Esoth p Hpm Hp_rest).
        rewrite (dedicated_state_eq w p o Hd).
        rewrite (dedicated_state_eq w1 p o) by congruence.
        done.
      * assert (q ∈ rest.*1) as Hq1.
        { apply list_elem_of_fmap. by exists (q, g'). }
        assert (q ≠ p) as Hne by (intros ->; done).
        assert (q ∈ model) as Hqm by (apply Hsub; simpl; by right).
        destruct (Edel q g' t Hin) as [Et' Es'].
        { rewrite Eten; done. }
        by rewrite Et', Es', Est1.
Qed.

End FusedEngine.

(** ** Lines 175-184: the dictionary and the hooks *)
Section Setup.
Context `{T : Torch}.

Lemma Adam_new_singleton p fe w :
  Adam_new [p] fe w =
    Ok (fresh (dom (optims w)))
       (log_event (EvNewAdam (fresh (dom (optims w))) [p] fe)
          (set_optims (<[fresh (dom (optims w)) := mkAdam [p] fe ∅]>) w)).
Proof. reflexivity. Qed.

Lemma fresh_optim_unbound w : optims w !! fresh (dom (optims w)) = None.
Proof. apply not_elem_of_dom. apply is_fresh. Qed.

Lemma params_of_bound w o p : params_of w o = [p] → is_Some (optims w !! o).
Proof. unfold params_of. destruct (optims w !! o); [eauto|done]. Qed.

(** What the comprehension keeps true of the dictionary under
    construction: every entry leads to an optimizer over that key
    alone, and no optimizer is entered twice. *)
Lemma dict_comprehension_spec ps :
  ∀ d w,
  (∀ p o, d !! p = Some o → params_of w o = [p]) →
  (∀ p q o, d !! p = Some o → d !! q = Some o → p = q) →
  ∃ d' w', dict_comprehension ps d w = Ok d' w' ∧
    tensors w' = tensors w ∧
    optimizer_dict w' = optimizer_dict w ∧
    dom d' = dom d ∪ list_to_set ps ∧
    (∀ p o, d' !! p = Some o → params_of w' o = [p]) ∧
    (∀ p q o, d' !! p = Some o → d' !! q = Some o → p = q).
Proof.
  induction ps as [|p ps IH]; intros d w Hown Hinj.
  - exists d, w. simpl. repeat split; try done. set_solver.
  - simpl dict_comprehension. rewrite (bind_Ok _ _ _ _ _ (Adam_new_singleton p (Some false) w)).
    set (o := fresh (dom (optims w))).
    set (w1 := log_event _ _).
    pose proof (fresh_optim_unbound w) as Hfresh. fold o in Hfresh.
    assert (∀ o', is_Some (optims w !! o') → params_of w1 o' = params_of w o') as Hkeep.
    { intros o' [opt Ho']. unfold params_of. subst w1. simpl.
      rewrite lookup_insert_ne; [done|]. intros <-. congruence. }
    destruct (IH (<[p := o]> d) w1) as (d' & w' & Hrun & Et & Ed & Edom & Hown' & Hinj').
    + intros p' o' Hl. destruct (decide (p = p')) as [<-|Hne].
      * rewrite lookup_insert_eq in Hl. injection Hl as <-.
        unfold params_of. subst w1. simpl. by rewrite lookup_insert_eq.
      * rewrite lookup_insert_ne in Hl by done.
        rewrite Hkeep; [by apply Hown|]. eapply params_of_bound. by apply Hown.
    + intros p' q' o' Hp' Hq'.
      assert (∀ r, d !! r = Some o → False) as Hno.
      { intros r Hr. apply Hown, params_of_bound in Hr as [opt Ho]. congruence. }
      destruct (decide (p = p')) as [<-|Hnp], (decide (p = q')) as [<-|Hnq]; [done| | |].
      * rewrite lookup_insert_eq in Hp'. injection Hp' as <-.
        rewrite lookup_insert_ne in Hq' by done. by destruct (Hno q').
      * rewrite lookup_insert_eq in Hq'. injection Hq' as <-.
        rewrite lookup_insert_ne in Hp' by done. by destruct (Hno p').
      * rewrite lookup_insert_ne in Hp', Hq' by done. by apply (Hinj p' q' o').
    + exists d', w'. split; [exact Hrun|]. repeat split; try done.
      rewrite Edom, dom_insert_L. set_solver.
Qed.

Lemma build_optimizer_dict_spec model w :
  ∃ w', build_optimizer_dict model w = Ok tt w' ∧
    tensors w' = tensors w ∧
    dom (optimizer_dict w') = list_to_set model ∧
    (∀ p o, optimizer_dict w' !! p = Some o → params_of w' o = [p]) ∧
    (∀ p q o, optimizer_dict w' !! p = Some o → optimizer_dict w' !! q = Some o → p = q).
Proof.
  destruct (dict_comprehension_spec model ∅ w) as (d' & w' & Hrun & Et & _ & Edom & Hown & Hinj).
  { intros p o Hl. by rewrite lookup_empty in Hl. }
  { intros p q o Hl. by rewrite lookup_empty in Hl. }
  exists (set_optimizer_dict d' w'). unfold build_optimizer_dict.
  rewrite (bind_Ok _ _ _ _ _ Hrun). split; [done|]. simpl.
  repeat split; try done. rewrite Edom. set_solver.
Qed.

(** Registering the hooks: it goes through only if every tensor
    requires a gradient, and it touches nothing but the hook lists. *)
Lemma register_hooks_spec ps :
  ∀ w w', register_hooks ps w = Ok tt w' →
    optims w' = optims w ∧
    optimizer_dict w' = optimizer_dict w ∧
    (∀ q, requires_grad <$> tensors w' !! q = requires_grad <$> tensors w !! q) ∧
    (∀ p, p ∈ ps → trainable w p) ∧
    (∀ q, q ∉ ps → hooks_of w' q = hooks_of w q) ∧
    (NoDup ps → ∀ p, p ∈ ps → hooks_of w' p = hooks_of w p ++ [OptimizerHook]).
Proof.
  induction ps as [|p ps IH]; intros w w' Hrun.
  - simpl in Hrun. injection Hrun as <-. repeat split; try done.
    + intros p Hin. by apply elem_of_nil in Hin.
    + intros _ p Hin. by apply elem_of_nil in Hin.
  - simpl in Hrun. unfold bind at 1 in Hrun.
    unfold register_post_accumulate_grad_hook, bind at 1, get in Hrun.
    destruct (tensors w !! p) as [t|] eqn:Et; [|done].
    destruct (requires_grad t) eqn:Erg; [|done].
    unfold bind, modify, emit in Hrun. simpl in Hrun.
    set (w1 := log_event _ _) in Hrun.
    destruct (IH w1 w' Hrun) as (Eo & Ed & Erq & Htr & Hoth & Hnd).
    assert (∀ q, requires_grad <$> tensors w1 !! q = requires_grad <$> tensors w !! q) as Erq1.
    { intros q. subst w1. simpl. destruct (decide (p = q)) as [<-|Hne].
      - rewrite lookup_insert_eq, Et. simpl. done.
      - by rewrite lookup_insert_ne. }
    assert (∀ q, q ≠ p → hooks_of w1 q = hooks_of w q) as Hh1.
    { intros q Hne. unfold hooks_of. subst w1. simpl. by rewrite lookup_insert_ne. }
    assert (hooks_of w1 p = hooks_of w p ++ [OptimizerHook]) as Hhp.
    { unfold hooks_of. subst w1. simpl. by rewrite lookup_insert_eq, Et. }
    repeat split.
    + by rewrite Eo.
    + by rewrite Ed.
    + intros q. by rewrite Erq, Erq1.
    + intros q Hin. apply elem_of_cons in Hin as [->|Hin].
      * unfold trainable. by rewrite Et; simpl; rewrite Erg.
      * specialize (Htr q Hin). unfold trainable in *. by rewrite <- Erq1.
    + intros q Hq. apply not_elem_of_cons in Hq as [Hne Hq].
      rewrite (Hoth q Hq). by apply Hh1.
    + intros Hnodup q Hin. apply NoDup_cons in Hnodup as [Hp Hnodup].
      apply elem_of_cons in Hin as [->|Hin].
      * by rewrite (Hoth p Hp).
      * rewrite (Hnd Hnodup q Hin). rewrite Hh1; [done|]. by intros ->.
Qed.

End Setup.

Section SetupReady.
Context `{T : Torch}.

Lemma fused_setup_inv model w w' :
  fused_setup model w = Ok tt w' →
  dom (optimizer_dict w') = list_to_set model ∧
  (∀ p o, optimizer_dict w' !! p = Some o → params_of w' o = [p]) ∧
  (∀ p q o, optimizer_dict w' !! p = Some o → optimizer_dict w' !! q = Some o → p = q) ∧
  (∀ p, p ∈ model → trainable w' p) ∧
  (NoDup model → ∀ p, p ∈ model → hooks_of w' p = hooks_of w p ++ [OptimizerHook]).
Proof.
  intros Hrun. unfold fused_setup in Hrun.
  destruct (build_optimizer_dict_spec model w) as (w1 & Hb & Et & Edom & Hown & Hinj).
  rewrite (bind_Ok _ _ _ _ _ Hb) in Hrun.
  destruct (register_hooks_spec model w1 w' Hrun) as (Eo & Ed & Erq & Htr & _ & Hhk).
  assert (∀ o, params_of w' o = params_of w1 o) as Epar.
  { intros o. unfold params_of. by rewrite Eo. }
  rewrite Ed. repeat split.
  - exact Edom.
  - intros p o Hl. rewrite Epar. by apply Hown.
  - exact Hinj.
  - intros p Hin. specialize (Htr p Hin). unfold trainable in *. by rewrite Erq.
  - intros Hnd p Hin. rewrite (Hhk Hnd p Hin). unfold hooks_of. by rewrite Et.
Qed.

(** Lines 175-184 leave the store as the fused loop expects it, when
    the parameters are distinct and carried no hook before. *)
Lemma fused_setup_ready model w w' :
  NoDup model → (∀ p, p ∈ model → hooks_of w p = []) →
  fused_setup model w = Ok tt w' → fused_ready model w'.
Proof.
  intros Hnd Hnone Hrun.
  destruct (fused_setup_inv model w w' Hrun) as (Edom & Hown & Hinj & _ & Hhk).
  assert (∀ p, p ∈ model → ∃ o, optimizer_dict w' !! p = Some o) as Hkey.
  { intros p Hin. apply (elem_of_dom (optimizer_dict w') p). rewrite Edom. set_solver. }
  repeat split.
  - apply Forall_forall. intros p Hin. destruct (Hkey p Hin) as [o Ho].
    unfold dedicated. rewrite Ho. by apply Hown.
  - apply Forall_forall. intros p Hin. unfold hooked.
    by rewrite (Hhk Hnd p Hin), (Hnone p Hin).
  - apply Forall_forall. intros p Hp. apply Forall_forall. intros q Hq Hne Heq.
    destruct (Hkey p Hp) as [o Ho]. apply Hne, (Hinj p q o); congruence.
Qed.


End SetupReady.

(** ** Which calls leave a component of the store alone *)
Section Keeps.
Context `{T : Torch} {X : Type} (f : World → X).

Lemma keeps_ret {A} (a : A) : keeps f (ret a).
Proof. by intros w. Qed.

Lemma keeps_raise {A} e : keeps f (raise (A := A) e).
Proof. by intros w. Qed.

Lemma keeps_get : keeps f get.
Proof. by intros w. Qed.

Lemma keeps_modify g : (∀ w, f (g w) = f w) → keeps f (modify g).
Proof. intros Hg w. apply Hg. Qed.

Lemma keeps_bind {A B} (m : M A) (k : A → M B) :
  keeps f m → (∀ a, keeps f (k a)) → keeps f (bind m k).
Proof.
  intros Hm Hk w. unfold bind. specialize (Hm w).
  destruct (m w) as [a w1|e w1]; simpl in *; [|done].
  by rewrite (Hk a w1).
Qed.

Lemma keeps_for_range n body : keeps f body → keeps f (for_range n body).
Proof.
  intros Hb. induction n as [|n IH]; simpl; [apply keeps_ret|].
  apply keeps_bind; [done|by intros _].
Qed.

(** The component is not the trace or the history, not a tensor, not
    an optimizer and not the position in the input sequence. *)
Hypothesis f_log : ∀ e w, f (log_event e w) = f w.
Hypothesis f_tensors : ∀ g w, f (set_tensors g w) = f w.
Hypothesis f_optims : ∀ g w, f (set_optims g w) = f w.
Hypothesis f_rng : ∀ n w, f (set_rng_pos n w) = f w.

Lemma keeps_emit e : keeps f (emit e).
Proof. apply keeps_modify. intros w. apply f_log. Qed.

Lemma keeps_torch_rand shape : keeps f (torch_rand shape).
Proof.
  unfold torch_rand. apply keeps_bind; [apply keeps_get|intros w].
  apply keeps_bind; [apply keeps_modify; intros w'; apply f_rng|intros _].
  apply keeps_bind; [apply keeps_emit|intros _]. apply keeps_ret.
Qed.

Lemma keeps_forward model b : keeps f (forward model b).
Proof.
  unfold forward. apply keeps_bind; [apply keeps_get|intros w].
  apply keeps_bind; [apply keeps_emit|intros _]. apply keeps_ret.
Qed.

Lemma keeps_accumulate_grad p g : keeps f (accumulate_grad p g).
Proof.
  unfold accumulate_grad. apply keeps_bind; [apply keeps_emit|intros _].
  apply keeps_modify. intros w. apply f_tensors.
Qed.

Lemma f_step_param o w p : f (step_param o w p) = f w.
Proof.
  unfold step_param.
  destruct (optims w !! o) as [opt|]; [|done].
  destruct (tensors w !! p) as [t|]; [|done].
  destruct (grad t); [|done].
  by rewrite f_optims, f_tensors.
Qed.

Lemma f_step_world o w : f (step_world o w) = f w.
Proof.
  unfold step_world. generalize (params_of w o). intros ps.
  revert w. induction ps as [|p ps IH]; intros w; simpl; [done|].
  by rewrite IH, f_step_param.
Qed.

Lemma keeps_Adam_step o : keeps f (Adam_step o).
Proof.
  unfold Adam_step. apply keeps_bind; [apply keeps_emit|intros _].
  apply keeps_modify. intros w. apply f_step_world.
Qed.

Lemma keeps_Adam_zero_grad o : keeps f (Adam_zero_grad o).
Proof.
  unfold Adam_zero_grad. apply keeps_bind; [apply keeps_emit|intros _].
  apply keeps_modify. intros w. apply f_tensors.
Qed.

Lemma keeps_getitem p : keeps f (optimizer_dict_getitem p).
Proof.
  unfold optimizer_dict_getitem. apply keeps_bind; [apply keeps_emit|intros _].
  apply keeps_bind; [apply keeps_get|intros w].
  destruct (optimizer_dict w !! p); [apply keeps_ret|apply keeps_raise].
Qed.

Lemma keeps_optimizer_hook p : keeps f (optimizer_hook p).
Proof.
  unfold optimizer_hook.
  apply keeps_bind; [|intros _].
  - apply keeps_bind; [apply keeps_getitem|intros o]. apply keeps_Adam_step.
  - apply keeps_bind; [apply keeps_getitem|intros o]. apply keeps_Adam_zero_grad.
Qed.

Lemma keeps_run_hooks hs p : keeps f (run_hooks hs p).
Proof.
  induction hs as [|[] hs IH]; simpl; [apply keeps_ret|].
  apply keeps_bind; [apply keeps_optimizer_hook|by intros _].
Qed.

Lemma keeps_engine graph : keeps f (engine graph).
Proof.
  induction graph as [|[p g] rest IH]; simpl; [apply keeps_ret|].
  apply keeps_bind; [apply keeps_accumulate_grad|intros _].
  apply keeps_bind; [|by intros _].
  apply keeps_bind; [apply keeps_get|intros w]. apply keeps_run_hooks.
Qed.

Lemma keeps_backward loss : keeps f (backward loss).
Proof. unfold backward. apply keeps_bind; [apply keeps_emit|intros _]. apply keeps_engine. Qed.

Lemma keeps_train_fused model : keeps f (train_fused model).
Proof.
  unfold train_fused.
  apply keeps_bind; [apply keeps_torch_rand|intros b].
  apply keeps_bind; [apply keeps_forward|intros loss]. apply keeps_backward.
Qed.

Lemma keeps_train model optimizer : keeps f (train model optimizer).
Proof.
  unfold train.
  apply keeps_bind; [apply keeps_torch_rand|intros b].
  apply keeps_bind; [apply keeps_forward|intros loss].
  apply keeps_bind; [apply keeps_backward|intros _].
  apply keeps_bind; [apply keeps_Adam_step|intros _]. apply keeps_Adam_zero_grad.
Qed.





(** The component is not touched by the memory recorder or by a
    file being written either. *)
Hypothesis f_recording : ∀ b w, f (set_recording b w) = f w.
Hypothesis f_history : ∀ h w, f (set_history h w) = f w.
Hypothesis f_files : ∀ g w, f (set_files g w) = f w.

Lemma keeps_record_memory_history enabled : keeps f (record_memory_history enabled).
Proof.
  unfold record_memory_history. apply keeps_bind; [apply keeps_emit|intros _].
  destruct enabled.
  - apply keeps_bind; [apply keeps_modify; intros w; apply f_recording|intros _].
    apply keeps_modify. intros w. apply f_history.
  - apply keeps_modify. intros w. apply f_recording.
Qed.

Lemma keeps_snapshot : keeps f snapshot.
Proof.
  unfold snapshot. apply keeps_bind; [apply keeps_emit|intros _].
  apply keeps_bind; [apply keeps_get|intros w]. apply keeps_ret.
Qed.





End Keeps.

(** ** The hook *)
Section HookClaims.
Context `{T : Torch}.







(** Claim C10.  For a tensor that is not a key of the dictionary the hook
    raises [KeyError] at the first lookup: no [step] and no
    [zero_grad] is called, and no tensor and no optimizer changes. *)
Theorem optimizer_hook_key_error p w :
  optimizer_dict w !! p = None →
  ∃ w', optimizer_hook p w = Raise KeyError w' ∧
    trace w' = trace w ++ [EvGetItem p] ∧
    tensors w' = tensors w ∧
    optims w' = optims w ∧
    optimizer_dict w' = optimizer_dict w.
Proof.
  intros Hd. eexists. split; [by apply optimizer_hook_missing|]. done.
Qed.

Lemma final_optimizer_hook p o w :
  optimizer_dict w !! p = Some o →
  final (optimizer_hook p w) =
    log_events [EvGetItem p; EvStep o; EvGetItem p; EvZeroGrad o] (hook_effect o w).
Proof. intros Hd. by rewrite (optimizer_hook_found p o w Hd). Qed.

(** Claim C9.  A call of the hook on [p], whose optimizer has [p] as its
    only parameter, leaves every other tensor (values and gradient)
    and every other optimizer as they were; the optimizer of [p] keeps
    its parameter list and [p] keeps its hooks. *)
Theorem optimizer_hook_touches_only_its_parameter p o w :
  optimizer_dict w !! p = Some o → params_of w o = [p] →
  (∀ q, q ≠ p → tensors (final (optimizer_hook p w)) !! q = tensors w !! q) ∧
  (∀ o', o' ≠ o → optims (final (optimizer_hook p w)) !! o' = optims w !! o') ∧
  params_of (final (optimizer_hook p w)) o = [p] ∧
  hooks_of (final (optimizer_hook p w)) p = hooks_of w p.
Proof.
  intros Hd Hp. rewrite (final_optimizer_hook p o w Hd).
  rewrite tensors_log_events, optims_log_events, params_of_log_events.
  repeat split.
  - intros q Hne. by apply (hook_effect_tensor_other o p).
  - intros o' Hne. by apply (hook_effect_optim_other o p).
  - by rewrite params_of_hook_effect.
  - unfold hooks_of at 1. rewrite tensors_log_events.
    apply (hook_effect_hooks o p w p Hp).
Qed.



End HookClaims.

(** ** The engine and the optimizer calls of the baseline loop *)
Section Baseline.
Context `{T : Torch}.

Lemma no_hooks_hooks_of w p : no_hooks w → hooks_of w p = [].
Proof.
  intros Hn. unfold hooks_of. destruct (tensors w !! p) as [t|] eqn:Et; [|done].
  by apply (Hn p t).
Qed.

Lemma no_hooks_ext w w' :
  (∀ q, hooks_of w' q = hooks_of w q) → no_hooks w → no_hooks w'.
Proof.
  intros Hh Hn p t Et. specialize (Hh p). rewrite (no_hooks_hooks_of w p Hn) in Hh.
  unfold hooks_of in Hh. by rewrite Et in Hh.
Qed.

(** Without hooks the engine only accumulates. *)
Lemma engine_no_hooks graph :
  ∀ w, no_hooks w →
  engine graph w =
    Ok tt (log_events (EvAccumulate <$> graph.*1) (set_tensors (accumulate_all graph) w)).
Proof.
  induction graph as [|[p g] rest IH]; intros w Hn.
  - simpl. unfold ret. by destruct w.
  - simpl engine. unfold accumulate_grad, emit, modify, get.
    unfold bind at 1. unfold bind at 1. simpl.
    unfold bind at 1. unfold bind at 1.
    set (w1 := set_tensors (alter (add_grad g) p) (log_event (EvAccumulate p) w)).
    assert (∀ q, hooks_of w1 q = hooks_of w q) as Hh.
    { intros q. subst w1. by rewrite hooks_of_add_grad. }
    rewrite Hh, (no_hooks_hooks_of w p Hn). simpl run_hooks. unfold ret at 1.
    rewrite (IH w1 (no_hooks_ext w w1 Hh Hn)). reflexivity.
Qed.

Lemma accumulate_all_other graph (ts : gmap PId Tensor) q :
  q ∉ graph.*1 → accumulate_all graph ts !! q = ts !! q.
Proof.
  revert ts. induction graph as [|[p g] rest IH]; intros ts Hq; [done|].
  simpl in Hq. apply not_elem_of_cons in Hq as [Hne Hq].
  unfold accumulate_all. simpl. fold (accumulate_all rest (alter (add_grad g) p ts)).
  rewrite (IH _ Hq). by rewrite lookup_alter_ne.
Qed.

Lemma accumulate_all_at graph (ts : gmap PId Tensor) p g :
  NoDup graph.*1 → (p, g) ∈ graph →
  accumulate_all graph ts !! p = add_grad g <$> ts !! p.
Proof.
  revert ts. induction graph as [|[p' g'] rest IH]; intros ts Hnd Hin.
  - by apply elem_of_nil in Hin.
  - simpl in Hnd. apply NoDup_cons in Hnd as [Hp' Hnd].
    unfold accumulate_all. simpl. fold (accumulate_all rest (alter (add_grad g') p' ts)).
    apply elem_of_cons in Hin as [Heq|Hin].
    + injection Heq as -> ->. rewrite (accumulate_all_other rest _ p' Hp').
      by rewrite lookup_alter_eq.
    + rewrite (IH _ Hnd Hin). rewrite lookup_alter_ne; [done|].
      intros ->. apply Hp', list_elem_of_fmap. by exists (p, g).
Qed.

Lemma hooks_of_accumulate_all graph w q :
  hooks_of (set_tensors (accumulate_all graph) w) q = hooks_of w q.
Proof.
  revert w. induction graph as [|[p g] rest IH]; intros w.
  - unfold hooks_of. done.
  - transitivity (hooks_of (set_tensors (alter (add_grad g) p) w) q).
    + apply (IH (set_tensors (alter (add_grad g) p) w)).
    + apply hooks_of_add_grad.
Qed.


(** The fused [train] is the engine run after the three calls. *)
Lemma train_fused_unfold model w :
  train_fused model w =
    engine (autograd (rand_src (rng_pos w)) (data <$> tensors w))
      (log_events [EvRand [1; 3; IMAGE_SIZE; IMAGE_SIZE]; EvForward; EvBackward]
         (set_rng_pos (S (rng_pos w)) w)).
Proof. reflexivity. Qed.

(** The first [train] is the second one followed by the two
    optimizer calls. *)
Lemma train_unfold model optimizer w :
  train model optimizer w =
    bind (train_fused model)
      (λ _, bind (Adam_step optimizer) (λ _, Adam_zero_grad optimizer)) w.
Proof.
  unfold train, train_fused, bind, torch_rand, forward, get, modify, emit, ret. simpl.
  by destruct (backward _ _).
Qed.

End Baseline.

(** ** [step] and [zero_grad] over a parameter list *)
Section StepAll.
Context `{T : Torch}.

Lemma step_param_bound o w p :
  is_Some (optims w !! o) → is_Some (optims (step_param o w p) !! o).
Proof.
  intros [opt Ho]. unfold step_param. rewrite Ho.
  destruct (tensors w !! p) as [t|]; [|by rewrite Ho].
  destruct (grad t); [|by rewrite Ho].
  simpl. rewrite lookup_insert_eq. eauto.
Qed.

Lemma step_param_state_other o w p q :
  q ≠ p → state_in (step_param o w p) o q = state_in w o q.
Proof.
  intros Hne. unfold step_param, state_in.
  destruct (optims w !! o) as [opt|] eqn:Ho; [|by rewrite Ho].
  destruct (tensors w !! p) as [t|]; [|by rewrite Ho].
  destruct (grad t); [|by rewrite Ho].
  simpl. rewrite lookup_insert_eq. simpl. by rewrite lookup_insert_ne.
Qed.

Lemma step_param_at o w p :
  is_Some (optims w !! o) →
  tensors (step_param o w p) !! p = stepped (state_in w o p) <$> tensors w !! p ∧
  state_in (step_param o w p) o p =
    match tensors w !! p with
    | Some t => stepped_state (state_in w o p) t
    | None => state_in w o p
    end.
Proof.
  intros [opt Ho]. unfold step_param, state_in, stepped, stepped_state. rewrite Ho.
  destruct (tensors w !! p) as [t|] eqn:Et; [|by rewrite Et, Ho].
  destruct (grad t) as [g|] eqn:Eg; simpl.
  - rewrite !lookup_insert_eq. simpl. by rewrite Eg, lookup_insert_eq.
  - rewrite Et, Ho. simpl. by rewrite Eg.
Qed.

Lemma foldl_step_param_spec o ps :
  NoDup ps → ∀ w, is_Some (optims w !! o) →
  (∀ q, q ∉ ps →
     tensors (foldl (step_param o) w ps) !! q = tensors w !! q ∧
     state_in (foldl (step_param o) w ps) o q = state_in w o q) ∧
  (∀ p, p ∈ ps →
     tensors (foldl (step_param o) w ps) !! p = stepped (state_in w o p) <$> tensors w !! p ∧
     state_in (foldl (step_param o) w ps) o p =
       match tensors w !! p with
       | Some t => stepped_state (state_in w o p) t
       | None => state_in w o p
       end).
Proof.
  induction ps as [|p ps IH]; intros Hnd w Hb.
  - split; [done|]. intros p Hin. by apply elem_of_nil in Hin.
  - apply NoDup_cons in Hnd as [Hp Hnd]. simpl.
    destruct (IH Hnd (step_param o w p) (step_param_bound o w p Hb)) as [Hoth Hat].
    split.
    + intros q Hq. apply not_elem_of_cons in Hq as [Hne Hq].
      destruct (Hoth q Hq) as [-> ->].
      by rewrite step_param_tensor_other, step_param_state_other.
    + intros q Hin. apply elem_of_cons in Hin as [->|Hin].
      * destruct (Hoth p Hp) as [-> ->]. by apply step_param_at.
      * assert (q ≠ p) as Hne by (by intros ->).
        destruct (Hat q Hin) as [-> ->].
        by rewrite step_param_tensor_other, step_param_state_other.
Qed.

Lemma foldl_step_param_hooks o ps w q :
  hooks_of (foldl (step_param o) w ps) q = hooks_of w q.
Proof.
  revert w. induction ps as [|p ps IH]; intros w; simpl; [done|].
  by rewrite IH, step_param_hooks.
Qed.

Lemma foldl_clear_other ps (ts : gmap PId Tensor) q :
  q ∉ ps → foldl (λ ts p, alter clear_grad p ts) ts ps !! q = ts !! q.
Proof.
  revert ts. induction ps as [|p ps IH]; intros ts Hq; [done|].
  apply not_elem_of_cons in Hq as [Hne Hq]. simpl.
  rewrite (IH _ Hq). by rewrite lookup_alter_ne.
Qed.

Lemma clear_grad_idemp (o : option Tensor) :
  clear_grad <$> (clear_grad <$> o) = clear_grad <$> o.
Proof. by destruct o. Qed.

Lemma foldl_clear_at ps (ts : gmap PId Tensor) q :
  q ∈ ps → foldl (λ ts p, alter clear_grad p ts) ts ps !! q = clear_grad <$> ts !! q.
Proof.
  revert ts. induction ps as [|p ps IH]; intros ts Hq.
  - by apply elem_of_nil in Hq.
  - simpl. destruct (decide (q ∈ ps)) as [Hin|Hnin].
    + rewrite (IH _ Hin). destruct (decide (p = q)) as [<-|Hne].
      * by rewrite lookup_alter_eq, clear_grad_idemp.
      * by rewrite lookup_alter_ne.
    + rewrite (foldl_clear_other ps _ q Hnin).
      apply elem_of_cons in Hq as [->|Hq]; [|done].
      by rewrite lookup_alter_eq.
Qed.

End StepAll.

(** ** One iteration of the baseline loop *)
Section BaselineIteration.
Context `{T : Torch}.

Lemma step_world_log_events es o w :
  step_world o (log_events es w) = log_events es (step_world o w).
Proof.
  revert w. induction es as [|e es IH]; intros w; simpl; [done|].
  by rewrite IH, step_world_log.
Qed.

Lemma zero_grad_world_log_events es o w :
  zero_grad_world o (log_events es w) = log_events es (zero_grad_world o w).
Proof.
  revert w. induction es as [|e es IH]; intros w; simpl; [done|].
  by rewrite IH.
Qed.

Lemma train_no_hooks model optimizer w :
  no_hooks w →
  let graph := autograd (rand_src (rng_pos w)) (data <$> tensors w) in
  train model optimizer w =
    Ok tt (log_events
             ([EvRand [1; 3; IMAGE_SIZE; IMAGE_SIZE]; EvForward; EvBackward]
              ++ (EvAccumulate <$> graph.*1) ++ [EvStep optimizer; EvZeroGrad optimizer])
             (baseline_effect graph optimizer (set_rng_pos (S (rng_pos w)) w))).
Proof.
  intros Hn graph. rewrite train_unfold.
  assert (train_fused model w =
    Ok tt (log_events (EvAccumulate <$> graph.*1)
      (set_tensors (accumulate_all graph)
        (log_events [EvRand [1; 3; IMAGE_SIZE; IMAGE_SIZE]; EvForward; EvBackward]
           (set_rng_pos (S (rng_pos w)) w))))) as Hf.
  { rewrite train_fused_unfold. apply engine_no_hooks.
    apply (no_hooks_ext w); [|done]. intros q. reflexivity. }
  rewrite (bind_Ok _ _ _ _ _ Hf).
  unfold Adam_step, Adam_zero_grad, bind, emit, modify. f_equal.
  rewrite !log_events_app. unfold baseline_effect.
  change (log_event (EvZeroGrad optimizer) ?x) with (log_events [EvZeroGrad optimizer] x).
  change (log_event (EvStep optimizer) ?x) with (log_events [EvStep optimizer] x).
  rewrite !step_world_log_events, !zero_grad_world_log_events.
  rewrite <- !log_events_app.
  change (set_tensors (accumulate_all graph) (log_events ?es ?x))
    with (log_events es (set_tensors (accumulate_all graph) x)).
  rewrite !step_world_log_events, !zero_grad_world_log_events.
  by rewrite <- !log_events_app.
Qed.

Lemma baseline_effect_spec model graph o w :
  is_Some (optims w !! o) → params_of w o = model → NoDup model →
  NoDup graph.*1 → (∀ p, p ∈ graph.*1 → p ∈ model) →
  (∀ q, q ∉ model → tensors (baseline_effect graph o w) !! q = tensors w !! q) ∧
  (∀ p g t, (p, g) ∈ graph → tensors w !! p = Some t →
     tensors (baseline_effect graph o w) !! p =
       Some (updated (state_in w o p) (accumulated (grad t) g) t) ∧
     state_in (baseline_effect graph o w) o p =
       (adam_update (state_in w o p) (data t) (accumulated (grad t) g)).2) ∧
  (∀ q, q ∈ model → q ∉ graph.*1 →
     tensors (baseline_effect graph o w) !! q =
       clear_grad <$> (stepped (state_in w o q) <$> tensors w !! q) ∧
     state_in (baseline_effect graph o w) o q =
       match tensors w !! q with
       | Some t => stepped_state (state_in w o q) t
       | None => state_in w o q
       end).
Proof.
  intros Hb Hpar Hnd Hgnd Hsub. unfold baseline_effect.
  set (wa := set_tensors (accumulate_all graph) w).
  assert (params_of wa o = model) as Hpa by exact Hpar.
  assert (is_Some (optims wa !! o)) as Hba by exact Hb.
  destruct (foldl_step_param_spec o model Hnd wa Hba) as [Hoth Hat].
  assert (step_world o wa = foldl (step_param o) wa model) as Es.
  { unfold step_world. by rewrite Hpa. }
  assert (∀ q, tensors (zero_grad_world o (step_world o wa)) !! q =
               foldl (λ ts p, alter clear_grad p ts) (tensors (step_world o wa)) model !! q)
    as Ez.
  { intros q. unfold zero_grad_world. simpl. by rewrite params_of_step_world, Hpa. }
  assert (∀ q, state_in (zero_grad_world o (step_world o wa)) o q
               = state_in (step_world o wa) o q) as Ezs by done.
  assert (∀ q, state_in wa o q = state_in w o q) as Eas by done.
  split; [|split].
  - intros q Hq. rewrite Ez, (foldl_clear_other model _ q Hq), Es.
    destruct (Hoth q Hq) as [-> _]. subst wa. simpl.
    apply accumulate_all_other. intros Hin. by apply Hq, Hsub.
  - intros p g t Hin Ht.
    assert (p ∈ model) as Hpm.
    { apply Hsub, list_elem_of_fmap. by exists (p, g). }
    rewrite Ez, (foldl_clear_at model _ p Hpm), Ezs, Es.
    destruct (Hat p Hpm) as [-> ->]. rewrite Eas.
    assert (tensors wa !! p = Some (add_grad g t)) as ->.
    { subst wa. simpl. by rewrite (accumulate_all_at graph _ p g Hgnd Hin), Ht. }
    done.
  - intros q Hqm Hq.
    rewrite Ez, (foldl_clear_at model _ q Hqm), Ezs, Es.
    destruct (Hat q Hqm) as [-> ->]. rewrite Eas.
    assert (tensors wa !! q = tensors w !! q) as ->.
    { subst wa. simpl. by apply accumulate_all_other. }
    done.
Qed.

Lemma baseline_effect_frame graph o w :
  optimizer_dict (baseline_effect graph o w) = optimizer_dict w ∧
  rng_pos (baseline_effect graph o w) = rng_pos w ∧
  (∀ o', params_of (baseline_effect graph o w) o' = params_of w o') ∧
  (∀ q, hooks_of (baseline_effect graph o w) q = hooks_of w q) ∧
  (is_Some (optims w !! o) → is_Some (optims (baseline_effect graph o w) !! o)).
Proof.
  unfold baseline_effect.
  set (wa := set_tensors (accumulate_all graph) w).
  destruct (step_world_frame o wa) as (Ed & Er & _).
  repeat split.
  - simpl. by rewrite Ed.
  - simpl. by rewrite Er.
  - intros o'. unfold zero_grad_world, params_of at 1. simpl.
    fold (params_of (step_world o wa) o'). by rewrite params_of_step_world.
  - intros q. unfold zero_grad_world, hooks_of at 1. simpl.
    rewrite params_of_step_world.
    destruct (decide (q ∈ params_of wa o)) as [Hin|Hnin].
    + rewrite (foldl_clear_at _ _ q Hin).
      transitivity (hooks_of (step_world o wa) q).
      { unfold hooks_of. by destruct (tensors (step_world o wa) !! q). }
      unfold step_world. rewrite foldl_step_param_hooks.
      subst wa. apply hooks_of_accumulate_all.
    + rewrite (foldl_clear_other _ _ q Hnin).
      fold (hooks_of (step_world o wa) q).
      unfold step_world. rewrite foldl_step_param_hooks.
      subst wa. apply hooks_of_accumulate_all.
  - intros Hb. simpl. unfold step_world. generalize (params_of wa o). intros ps.
    assert (is_Some (optims wa !! o)) as Hba by exact Hb.
    clear Ed Er. clearbody wa.
    revert wa Hba. induction ps as [|p ps IH]; intros wa Hba; simpl; [done|].
    apply IH. by apply step_param_bound.
Qed.

End BaselineIteration.

(** ** The two training functions *)
Section TrainClaims.
Context `{T : Torch}.


(** Claim C7.  In a store without hooks, one call of the first [train] makes,
    in this order, the calls [torch.rand], [model.forward],
    [backward], one [optimizer.step] and one [optimizer.zero_grad].
    When the backward pass delivers a gradient to every parameter of
    the model, every parameter holds its accumulated gradient after
    [backward], holds after [step] the values that the update rule
    gives from that gradient and the state the shared optimizer held
    for it, and has no gradient after [zero_grad]. *)
Theorem train_baseline_phases model optimizer w :
  no_hooks w →
  is_Some (optims w !! optimizer) → params_of w optimizer = model → NoDup model →
  NoDup (autograd (rand_src (rng_pos w)) (data <$> tensors w)).*1 →
  (∀ p, p ∈ (autograd (rand_src (rng_pos w)) (data <$> tensors w)).*1 ↔ p ∈ model) →
  ∃ w1 w2 w3,
    train_fused model w = Ok tt w1 ∧
    Adam_step optimizer w1 = Ok tt w2 ∧
    Adam_zero_grad optimizer w2 = Ok tt w3 ∧
    train model optimizer w = Ok tt w3 ∧
    trace w3 = trace w ++ [EvRand [1; 3; 224; 224]; EvForward; EvBackward]
               ++ (EvAccumulate <$> (autograd (rand_src (rng_pos w)) (data <$> tensors w)).*1)
               ++ [EvStep optimizer; EvZeroGrad optimizer] ∧
    ∀ p t, p ∈ model → tensors w !! p = Some t →
      ∃ g, (p, g) ∈ autograd (rand_src (rng_pos w)) (data <$> tensors w) ∧
        tensors w1 !! p = Some (add_grad g t) ∧
        tensors w2 !! p =
          Some (mkTensor (adam_update (state_in w optimizer p) (data t)
                            (accumulated (grad t) g)).1
                         (Some (accumulated (grad t) g))
                         (requires_grad t) (post_acc_hooks t)) ∧
        tensors w3 !! p =
          Some (updated (state_in w optimizer p) (accumulated (grad t) g) t).
Proof.
  intros Hn Hb Hpar Hnd Hgnd Hall.
  set (graph := autograd _ _) in *.
  set (w0 := log_events [EvRand [1; 3; IMAGE_SIZE; IMAGE_SIZE]; EvForward; EvBackward]
               (set_rng_pos (S (rng_pos w)) w)).
  set (w1 := log_events (EvAccumulate <$> graph.*1) (set_tensors (accumulate_all graph) w0)).
  set (w2 := step_world optimizer (log_event (EvStep optimizer) w1)).
  set (w3 := zero_grad_world optimizer (log_event (EvZeroGrad optimizer) w2)).
  assert (train_fused model w = Ok tt w1) as Hf.
  { rewrite train_fused_unfold. apply engine_no_hooks.
    apply (no_hooks_ext w); [|done]. intros q. reflexivity. }
  exists w1, w2, w3.
  split; [exact Hf|]. split; [reflexivity|]. split; [reflexivity|].
  split. { rewrite train_unfold. by rewrite (bind_Ok _ _ _ _ _ Hf). }
  set (ws := log_event (EvStep optimizer) w1) in *.
  assert (optims ws = optims w) as Eo.
  { subst ws w1. simpl. by rewrite optims_log_events. }
  assert (tensors ws = accumulate_all graph (tensors w)) as Et.
  { subst ws w1. simpl. by rewrite tensors_log_events. }
  assert (params_of ws optimizer = model) as Hpars.
  { unfold params_of. by rewrite Eo. }
  assert (∀ q, state_in ws optimizer q = state_in w optimizer q) as Est.
  { intros q. unfold state_in. by rewrite Eo. }
  assert (is_Some (optims ws !! optimizer)) as Hbs by (by rewrite Eo).
  destruct (foldl_step_param_spec optimizer model Hnd ws Hbs) as [_ Hat].
  assert (w2 = foldl (step_param optimizer) ws model) as E2.
  { subst w2. unfold step_world. by rewrite Hpars. }
  split.
  { subst w3. simpl. subst w2.
    rewrite (proj2 (proj2 (proj2 (proj2 (proj2 (step_world_frame optimizer ws)))))).
    subst ws w1. simpl. rewrite trace_log_events. subst w0. simpl.
    by rewrite <- !app_assoc. }
  intros p t Hpm Ht.
  pose proof (proj2 (Hall p) Hpm) as Hg.
  apply list_elem_of_fmap in Hg as ([p' g] & -> & Hin). simpl in *.
  exists g. split; [done|].
  assert (accumulate_all graph (tensors w) !! p' = Some (add_grad g t)) as Ea.
  { by rewrite (accumulate_all_at graph _ p' g Hgnd Hin), Ht. }
  split. { subst w1. by rewrite tensors_log_events. }
  assert (tensors w2 !! p' =
    Some (mkTensor (adam_update (state_in w optimizer p') (data t) (accumulated (grad t) g)).1
            (Some (accumulated (grad t) g)) (requires_grad t) (post_acc_hooks t))) as Es.
  { rewrite E2. destruct (Hat p' Hpm) as [-> _]. by rewrite Et, Ea, Est. }
  split; [exact Es|].
  change (tensors w3)
    with (foldl (λ ts p, alter clear_grad p ts) (tensors w2) (params_of w2 optimizer)).
  assert (params_of (log_event (EvZeroGrad optimizer) w2) optimizer = model) as ->.
  { change (params_of w2 optimizer = model). rewrite E2. by rewrite params_of_foldl_step. }
  by rewrite (foldl_clear_at model _ p' Hpm), Es.
Qed.

End TrainClaims.

(** ** The measured windows *)
Section Windows.
Context `{T : Torch}.

Lemma window_run (body : M unit) file w w2 :
  body (started w) = Ok tt w2 →
  bind (record_memory_history (Some "all"))
    (λ _, bind body (λ _, bind (bind snapshot (λ s, dump s file))
      (λ _, record_memory_history None))) w =
  Ok tt (set_recording false (log_event (EvRecordHistory None)
          (set_files (<[file := history (log_event EvSnapshot w2)]>)
             (log_event (EvDump file) (log_event EvSnapshot w2))))).
Proof.
  intros Hbody.
  assert (record_memory_history (Some "all") w = Ok tt (started w)) as Hstart by reflexivity.
  rewrite (bind_Ok _ _ _ _ _ Hstart), (bind_Ok _ _ _ _ _ Hbody).
  reflexivity.
Qed.

Lemma window_facts (body : M unit) file w w2 :
  keeps recording body →
  body (started w) = Ok tt w2 →
  recording (started w) = true ∧
  trace (started w) = trace w ++ [EvRecordHistory (Some "all")] ∧
  recording w2 = true ∧
  ∃ w', bind (record_memory_history (Some "all"))
          (λ _, bind body (λ _, bind (bind snapshot (λ s, dump s file))
            (λ _, record_memory_history None))) w = Ok tt w' ∧
    trace w' = trace w2 ++ [EvSnapshot; EvDump file; EvRecordHistory None] ∧
    files w' !! file = Some (history w2 ++ allocs EvSnapshot) ∧
    recording w' = false.
Proof.
  intros Hk Hbody.
  assert (recording w2 = true) as Hrec.
  { specialize (Hk (started w)). by rewrite Hbody in Hk. }
  split; [done|]. split; [done|]. split; [done|].
  eexists. split; [by apply window_run|]. simpl.
  rewrite lookup_insert_eq, Hrec, <- !app_assoc. done.
Qed.

(** Claim C6.  Each of the two measured windows switches recording on, runs
    the three iterations with recording on, then takes the snapshot
    while recording is still on, writes it to its file, and switches
    recording off, in this order.  The file holds the history as it
    stood at the call of [_snapshot]. *)
Theorem measured_windows model optimizer :
  (∀ w w2, for_range 3 (train model optimizer) (started w) = Ok tt w2 →
     recording (started w) = true ∧
     trace (started w) = trace w ++ [EvRecordHistory (Some "all")] ∧
     recording w2 = true ∧
     ∃ w', baseline_window model optimizer w = Ok tt w' ∧
       trace w' = trace w2 ++ [EvSnapshot; EvDump "snapshot.pickle"; EvRecordHistory None] ∧
       files w' !! "snapshot.pickle" = Some (history w2 ++ allocs EvSnapshot) ∧
       recording w' = false) ∧
  (∀ w w2, for_range 3 (train_fused model) (started w) = Ok tt w2 →
     recording (started w) = true ∧
     trace (started w) = trace w ++ [EvRecordHistory (Some "all")] ∧
     recording w2 = true ∧
     ∃ w', fused_window model w = Ok tt w' ∧
       trace w' = trace w2 ++ [EvSnapshot; EvDump "snapshot-opt-in-bwd.pickle";
                               EvRecordHistory None] ∧
       files w' !! "snapshot-opt-in-bwd.pickle" = Some (history w2 ++ allocs EvSnapshot) ∧
       recording w' = false).
Proof.
  split; intros w w2 Hbody.
  - apply (window_facts (for_range 3 (train model optimizer))); [|done].
    apply keeps_for_range. by apply keeps_train.
  - apply (window_facts (for_range 3 (train_fused model))); [|done].
    apply keeps_for_range. by apply keeps_train_fused.
Qed.

End Windows.

(** ** The fused loop against the baseline loop *)
Section Equivalence.
Context `{T : Torch}.

Lemma view_lookup w q :
  view w !! q = (λ t, (data t, grad t)) <$> tensors w !! q.
Proof. unfold view. apply lookup_fmap. Qed.

Lemma view_data w1 w2 : view w1 = view w2 → data <$> tensors w1 = data <$> tensors w2.
Proof.
  intros Hv. apply map_eq. intros q. rewrite !lookup_fmap.
  assert (view w1 !! q = view w2 !! q) as Hq by (by rewrite Hv).
  rewrite !view_lookup in Hq.
  destruct (tensors w1 !! q), (tensors w2 !! q); simpl in *; congruence.
Qed.

Lemma stepped_no_grad s (t : Tensor) : grad t = None → stepped s t = t.
Proof. intros Hg. unfold stepped. by rewrite Hg. Qed.

Lemma stepped_state_no_grad s (t : Tensor) : grad t = None → stepped_state s t = s.
Proof. intros Hg. unfold stepped_state. by rewrite Hg. Qed.

(** One iteration keeps the two stores in step. *)
Lemma in_step_iteration model optimizer wb wf :
  NoDup model →
  (∀ b ds, NoDup (autograd b ds).*1 ∧ ∀ p, p ∈ (autograd b ds).*1 → p ∈ model) →
  in_step model optimizer wb wf →
  ∃ wb' wf', train model optimizer wb = Ok tt wb' ∧
             train_fused model wf = Ok tt wf' ∧
             in_step model optimizer wb' wf'.
Proof.
  intros Hnd Hgraph (Hview & Hclean & Hrng & Hnh & Hbound & Hpar & Hready & Hstate).
  rewrite Forall_forall in Hclean. rewrite Forall_forall in Hstate.
  (* the same graph on both sides *)
  pose proof (view_data wb wf Hview) as Hdata.
  set (graph := autograd (rand_src (rng_pos wb)) (data <$> tensors wb)).
  destruct (Hgraph (rand_src (rng_pos wb)) (data <$> tensors wb)) as [Hgnd Hsub].
  fold graph in Hgnd, Hsub.
  (* the baseline side *)
  pose proof (train_no_hooks model optimizer wb Hnh) as Hb. cbv zeta in Hb. fold graph in Hb.
  set (wb0 := set_rng_pos (S (rng_pos wb)) wb) in *.
  destruct (baseline_effect_spec model graph optimizer wb0 Hbound Hpar Hnd Hgnd Hsub)
    as (B1 & B2 & B3).
  destruct (baseline_effect_frame graph optimizer wb0) as (_ & Brng & Bpar & Bhk & Bbound).
  (* the fused side *)
  pose proof (train_fused_unfold model wf) as Hf.
  rewrite <- Hrng, <- Hdata in Hf. fold graph in Hf.
  set (wf0 := log_events _ _) in Hf.
  assert (fused_ready model wf0) as Hready0.
  { apply (fused_ready_ext model wf); try done. }
  destruct (engine_fused model graph Hgnd Hsub wf0 Hready0)
    as (wf' & Hrun & Hready' & _ & Frng & F1 & F2 & F3).
  rewrite Hrun in Hf.
  eexists _, wf'. split; [exact Hb|]. split; [exact Hf|].
  set (wb' := log_events _ _).
  assert (∀ q, tensors wb' !! q = tensors (baseline_effect graph optimizer wb0) !! q) as Etb.
  { intros q. subst wb'. by rewrite tensors_log_events. }
  assert (∀ q, state_in wb' optimizer q = state_in (baseline_effect graph optimizer wb0) optimizer q)
    as Esb.
  { intros q. subst wb'. unfold state_in. by rewrite optims_log_events. }
  (* a parameter of the model in the two stores *)
  assert (∀ p, p ∈ model → ∃ tb tf, tensors wb !! p = Some tb ∧ tensors wf !! p = Some tf ∧
            data tb = data tf ∧ grad tb = None ∧ grad tf = None) as Hpair.
  { intros p Hpm.
    pose proof (fused_ready_hooked model wf p Hready Hpm) as Hh. unfold hooks_of in Hh.
    destruct (tensors wf !! p) as [tf|] eqn:Etf; [|done].
    assert (view wb !! p = view wf !! p) as Hq by (by rewrite Hview).
    rewrite !view_lookup, Etf in Hq.
    destruct (tensors wb !! p) as [tb|] eqn:Etb'; [|done]. simpl in Hq.
    injection Hq as Hd Hg.
    specialize (Hclean p Hpm). unfold grad_of in Hclean. rewrite Etb' in Hclean.
    simpl in Hclean. exists tb, tf. repeat split; congruence. }
  (* what each side has made of a parameter that received a gradient *)
  assert (∀ p g, (p, g) ∈ graph → ∃ tb tf s,
            tensors wb !! p = Some tb ∧ tensors wf !! p = Some tf ∧
            tensors wb' !! p = Some (updated s g tb) ∧
            tensors wf' !! p = Some (updated s g tf) ∧
            data tb = data tf ∧
            state_in wb' optimizer p = (adam_update s (data tb) g).2 ∧
            dedicated_state wf' p = (adam_update s (data tb) g).2) as Hdel.
  { intros p g Hin.
    assert (p ∈ model) as Hpm.
    { apply Hsub, list_elem_of_fmap. by exists (p, g). }
    destruct (Hpair p Hpm) as (tb & tf & Htb & Htf & Hd & Hgb & Hgf).
    destruct (B2 p g tb Hin Htb) as [Bt Bs].
    destruct (F3 p g tf Hin) as [Ft Fs].
    { subst wf0. by rewrite tensors_log_events. }
    exists tb, tf, (state_in wb optimizer p).
    rewrite Etb, Esb, Bt, Bs, Ft, Fs, Hgb, Hgf. simpl accumulated.
    assert (dedicated_state wf0 p = state_in wb optimizer p) as ->.
    { rewrite (Hstate p Hpm). unfold dedicated_state. subst wf0.
      by rewrite dict_log_events, optims_log_events. }
    rewrite <- Hd. repeat split; done. }
  (* what each side has made of a parameter that received none *)
  assert (∀ p, p ∈ model → p ∉ graph.*1 → ∃ tb tf,
            tensors wb !! p = Some tb ∧ tensors wf !! p = Some tf ∧
            tensors wb' !! p = Some (clear_grad tb) ∧
            tensors wf' !! p = Some tf ∧
            data tb = data tf ∧ grad tf = None ∧
            state_in wb' optimizer p = state_in wb optimizer p ∧
            dedicated_state wf' p = dedicated_state wf p) as Hidle.
  { intros p Hpm Hng.
    destruct (Hpair p Hpm) as (tb & tf & Htb & Htf & Hd & Hgb & Hgf).
    destruct (B3 p Hpm Hng) as [Bt Bs].
    exists tb, tf. rewrite Etb, Esb, Bt, Bs, (F1 p Hng), (F2 p Hpm Hng).
    assert (tensors wb0 !! p = Some tb) as -> by exact Htb.
    simpl. rewrite (stepped_no_grad _ tb Hgb), (stepped_state_no_grad _ tb Hgb).
    repeat split; done. }
  unfold in_step. split; [|split; [|split; [|split; [|split; [|split; [|split]]]]]].
  - apply map_eq. intros q. rewrite !view_lookup.
    destruct (decide (q ∈ model)) as [Hqm|Hqm].
    + destruct (decide (q ∈ graph.*1)) as [Hqg|Hqg].
      * apply list_elem_of_fmap in Hqg as ([q' g] & -> & Hin). simpl.
        destruct (Hdel q' g Hin) as (tb & tf & s & _ & _ & -> & -> & Hd & _).
        simpl. by rewrite Hd.
      * destruct (Hidle q Hqm Hqg) as (tb & tf & _ & _ & -> & -> & Hd & Hg & _).
        simpl. by rewrite Hd, Hg.
    + assert (q ∉ graph.*1) as Hqg by (intros Hin; by apply Hqm, Hsub).
      rewrite Etb, (B1 q Hqm), (F1 q Hqg).
      assert (view wb !! q = view wf !! q) as Hq by (by rewrite Hview).
      rewrite !view_lookup in Hq. subst wf0. rewrite tensors_log_events. exact Hq.
  - apply Forall_forall. intros p Hpm. unfold grad_of.
    destruct (decide (p ∈ graph.*1)) as [Hpg|Hpg].
    + apply list_elem_of_fmap in Hpg as ([p' g] & -> & Hin). simpl.
      destruct (Hdel p' g Hin) as (tb & tf & s & _ & _ & -> & _). done.
    + destruct (Hidle p Hpm Hpg) as (tb & tf & _ & _ & -> & _). done.
  - subst wb'. rewrite rng_log_events, Brng, Frng. subst wf0.
    rewrite rng_log_events. simpl. by rewrite Hrng.
  - apply (no_hooks_ext wb); [|done]. intros q. unfold hooks_of at 1.
    rewrite Etb. apply (Bhk q).
  - subst wb'. rewrite optims_log_events. by apply Bbound.
  - subst wb'. rewrite params_of_log_events, Bpar. exact Hpar.
  - exact Hready'.
  - apply Forall_forall. intros p Hpm.
    destruct (decide (p ∈ graph.*1)) as [Hpg|Hpg].
    + apply list_elem_of_fmap in Hpg as ([p' g] & -> & Hin). simpl.
      destruct (Hdel p' g Hin) as (tb & tf & s & _ & _ & _ & _ & _ & -> & ->). done.
    + destruct (Hidle p Hpm Hpg) as (tb & tf & _ & _ & _ & _ & _ & _ & -> & ->).
      by apply Hstate.
Qed.

(** Claim C4.  From stores that are in step (same values, same position in
    the input sequence, same optimizer state for each parameter), and
    with an engine that delivers at most one gradient to a parameter
    in a pass and only to parameters of the model, [n] iterations of
    the baseline loop and [n] iterations of the fused loop both
    finish, leave the same values in every tensor, and leave the
    stores in step; this holds for every [n], hence along the whole
    run. *)
Theorem fused_matches_baseline model optimizer :
  NoDup model →
  (∀ b ds, NoDup (autograd b ds).*1 ∧ ∀ p, p ∈ (autograd b ds).*1 → p ∈ model) →
  ∀ n wb wf, in_step model optimizer wb wf →
  ∃ wb' wf', for_range n (train model optimizer) wb = Ok tt wb' ∧
             for_range n (train_fused model) wf = Ok tt wf' ∧
             data <$> tensors wb' = data <$> tensors wf' ∧
             in_step model optimizer wb' wf'.
Proof.
  intros Hnd Hgraph n. induction n as [|n IH]; intros wb wf Hin.
  - exists wb, wf. split; [done|]. split; [done|]. split; [|done].
    apply view_data, Hin.
  - destruct (in_step_iteration model optimizer wb wf Hnd Hgraph Hin)
      as (wb1 & wf1 & Hb & Hf & Hin1).
    destruct (IH wb1 wf1 Hin1) as (wb' & wf' & Hbn & Hfn & Hd & Hin').
    exists wb', wf'. simpl for_range.
    rewrite (bind_Ok _ _ _ _ _ Hb), (bind_Ok _ _ _ _ _ Hf). done.
Qed.

End Equivalence.

(** ** The hook on the small instance *)


Lemma optimizer_hook_key_error_witness :
  ∃ w', optimizer_hook (T := Demo.torch) 3 Demo.w_fused = Raise KeyError w' ∧
    trace w' = trace Demo.w_fused ++ [EvGetItem 3] ∧
    tensors w' = tensors Demo.w_fused ∧
    optims w' = optims Demo.w_fused ∧
    optimizer_dict w' = optimizer_dict Demo.w_fused.
Proof.
  apply (optimizer_hook_key_error (T := Demo.torch) 3 Demo.w_fused).
  vm_compute. reflexivity.
Defined.

Lemma optimizer_hook_touches_only_its_parameter_witness :
  tensors (final (optimizer_hook (T := Demo.torch) 1 Demo.w_fused)) !! 2
    = tensors Demo.w_fused !! 2 ∧
  optims (final (optimizer_hook (T := Demo.torch) 1 Demo.w_fused)) !! 1
    = optims Demo.w_fused !! 1.
Proof.
  destruct (optimizer_hook_touches_only_its_parameter (T := Demo.torch) 1 0 Demo.w_fused)
    as (Ht & Ho & _).
  - vm_compute. reflexivity.
  - vm_compute. reflexivity.
  - split; [apply Ht|apply Ho]; lia.
Defined.




(** ** The loops on the small instance *)


Lemma train_baseline_phases_witness :
  ∃ w3, train (T := Demo.torch) Demo.model 0 Demo.w_baseline = Ok tt w3 ∧
    trace w3 = trace Demo.w_baseline
      ++ [EvRand [1; 3; 224; 224]; EvForward; EvBackward]
      ++ [EvAccumulate 2; EvAccumulate 1] ++ [EvStep 0; EvZeroGrad 0].
Proof.
  destruct (train_baseline_phases (T := Demo.torch) Demo.model 0 Demo.w_baseline)
    as (w1 & w2 & w3 & _ & _ & _ & Hrun & Htrace & _).
  - apply (bool_decide_unpack _). vm_compute. exact I.
  - vm_compute. eauto.
  - vm_compute. reflexivity.
  - unfold Demo.model. repeat constructor; set_solver.
  - simpl. repeat constructor; set_solver.
  - intros p. simpl. unfold Demo.model. set_solver.
  - exists w3. split; [exact Hrun|exact Htrace].
Defined.

Lemma measured_windows_witness :
  ∃ w', baseline_window (T := Demo.torch) Demo.model 0 Demo.w_baseline = Ok tt w' ∧
    files w' !! "snapshot.pickle"%string =
      Some (history (final (for_range 3 (train (T := Demo.torch) Demo.model 0)
                              (started Demo.w_baseline)))
            ++ allocs EvSnapshot) ∧
    recording w' = false.
Proof.
  destruct (measured_windows (T := Demo.torch) Demo.model 0) as [Hb _].
  destruct (Hb Demo.w_baseline
              (final (for_range 3 (train (T := Demo.torch) Demo.model 0)
                        (started Demo.w_baseline))))
    as (_ & _ & _ & w' & Hrun & _ & Hfile & Hrec).
  - vm_compute. reflexivity.
  - exists w'. split; [exact Hrun|]. split; [exact Hfile|exact Hrec].
Defined.

Lemma fused_matches_baseline_witness :
  ∃ wb' wf',
    for_range 3 (train (T := Demo.torch) Demo.model 0) Demo.w_baseline = Ok tt wb' ∧
    for_range 3 (train_fused (T := Demo.torch) Demo.model) Demo.w_fused = Ok tt wf' ∧
    data <$> tensors wb' = data <$> tensors wf' ∧
    in_step Demo.model 0 wb' wf'.
Proof.
  apply (fused_matches_baseline (T := Demo.torch) Demo.model 0).
  - unfold Demo.model. repeat constructor; set_solver.
  - intros b ds. simpl. unfold Demo.model. split; [repeat constructor; set_solver|set_solver].
  - unfold in_step. split; [|split; [|split; [|split; [|split; [|split; [|split]]]]]].
    + vm_compute. reflexivity.
    + vm_compute. repeat constructor.
    + reflexivity.
    + apply (bool_decide_unpack _). vm_compute. exact I.
    + vm_compute. eauto.
    + vm_compute. reflexivity.
    + apply (fused_setup_ready Demo.model Demo.w0).
      * unfold Demo.model. repeat constructor; set_solver.
      * intros p _. apply no_hooks_hooks_of. apply (bool_decide_unpack _). vm_compute. exact I.
      * vm_compute. reflexivity.
    + vm_compute. repeat constructor.
Defined.

(** * Further properties of the script *)

(** ** What training leaves of a tensor *)
Section Shape.
Context `{T : Torch}.

Lemma shape_lookup w q :
  shape w !! q = (λ t, (requires_grad t, post_acc_hooks t)) <$> tensors w !! q.
Proof. unfold shape. apply lookup_fmap. Qed.




Lemma shape_alter (h : Tensor → Tensor) p w :
  (∀ t, requires_grad (h t) = requires_grad t ∧ post_acc_hooks (h t) = post_acc_hooks t) →
  shape (set_tensors (alter h p) w) = shape w.
Proof.
  intros Hh. apply map_eq. intros q. rewrite !shape_lookup. simpl.
  destruct (decide (p = q)) as [<-|Hne].
  - rewrite lookup_alter_eq. destruct (tensors w !! p) as [t|]; [|done].
    simpl. destruct (Hh t) as [-> ->]. done.
  - by rewrite lookup_alter_ne.
Qed.

Lemma shape_step_param o w p : shape (step_param o w p) = shape w.
Proof.
  unfold step_param.
  destruct (optims w !! o) as [opt|]; [|done].
  destruct (tensors w !! p) as [t|] eqn:Et; [|done].
  destruct (grad t); [|done].
  apply map_eq. intros q. rewrite !shape_lookup. simpl.
  destruct (decide (p = q)) as [<-|Hne].
  - by rewrite lookup_insert_eq, Et.
  - by rewrite lookup_insert_ne.
Qed.

Lemma shape_step_world o w : shape (step_world o w) = shape w.
Proof.
  unfold step_world. generalize (params_of w o). intros ps.
  revert w. induction ps as [|p ps IH]; intros w; simpl; [done|].
  by rewrite IH, shape_step_param.
Qed.

Lemma shape_clear_all ps w :
  shape (set_tensors (λ ts, foldl (λ ts p, alter clear_grad p ts) ts ps) w) = shape w.
Proof.
  revert w. induction ps as [|p ps IH]; intros w; simpl; [done|].
  transitivity (shape (set_tensors (alter clear_grad p) w)).
  - pose proof (IH (set_tensors (alter clear_grad p) w)) as IHw.
    unfold shape in *. exact IHw.
  - by apply shape_alter.
Qed.

Lemma shape_zero_grad_world o w : shape (zero_grad_world o w) = shape w.
Proof. unfold zero_grad_world. apply shape_clear_all. Qed.

Lemma shape_hook_effect o w : shape (hook_effect o w) = shape w.
Proof. unfold hook_effect. by rewrite shape_zero_grad_world, shape_step_world. Qed.

Lemma keeps_shape_accumulate_grad p g : keeps shape (accumulate_grad p g).
Proof.
  unfold accumulate_grad. apply keeps_bind; [by apply keeps_emit|intros _].
  apply keeps_modify. intros w. by apply shape_alter.
Qed.

Lemma keeps_shape_Adam_step o : keeps shape (Adam_step o).
Proof.
  unfold Adam_step. apply keeps_bind; [by apply keeps_emit|intros _].
  apply keeps_modify. intros w. apply shape_step_world.
Qed.

Lemma keeps_shape_Adam_zero_grad o : keeps shape (Adam_zero_grad o).
Proof.
  unfold Adam_zero_grad. apply keeps_bind; [by apply keeps_emit|intros _].
  apply keeps_modify. intros w. apply shape_zero_grad_world.
Qed.

Lemma keeps_shape_optimizer_hook p : keeps shape (optimizer_hook p).
Proof.
  unfold optimizer_hook. apply keeps_bind; [|intros _].
  - apply keeps_bind; [by apply keeps_getitem|intros o]. apply keeps_shape_Adam_step.
  - apply keeps_bind; [by apply keeps_getitem|intros o]. apply keeps_shape_Adam_zero_grad.
Qed.

Lemma keeps_shape_run_hooks hs p : keeps shape (run_hooks hs p).
Proof.
  induction hs as [|[] hs IH]; simpl; [apply keeps_ret|].
  apply keeps_bind; [apply keeps_shape_optimizer_hook|by intros _].
Qed.

Lemma keeps_shape_engine graph : keeps shape (engine graph).
Proof.
  induction graph as [|[p g] rest IH]; simpl; [apply keeps_ret|].
  apply keeps_bind; [apply keeps_shape_accumulate_grad|intros _].
  apply keeps_bind; [|by intros _].
  apply keeps_bind; [apply keeps_get|intros w]. apply keeps_shape_run_hooks.
Qed.

Lemma keeps_shape_train_fused model : keeps shape (train_fused model).
Proof.
  unfold train_fused.
  apply keeps_bind; [by apply keeps_torch_rand|intros b].
  apply keeps_bind; [by apply keeps_forward|intros loss].
  unfold backward. apply keeps_bind; [by apply keeps_emit|intros _].
  apply keeps_shape_engine.
Qed.

Lemma keeps_shape_train model optimizer : keeps shape (train model optimizer).
Proof.
  unfold train.
  apply keeps_bind; [by apply keeps_torch_rand|intros b].
  apply keeps_bind; [by apply keeps_forward|intros loss].
  apply keeps_bind; [|intros _].
  - unfold backward. apply keeps_bind; [by apply keeps_emit|intros _].
    apply keeps_shape_engine.
  - apply keeps_bind; [apply keeps_shape_Adam_step|intros _].
    apply keeps_shape_Adam_zero_grad.
Qed.

End Shape.

(** ** When the fused loop can and cannot fail *)
Section Safety.
Context `{T : Torch}.







End Safety.

Section HookEdges.
Context `{T : Torch}.


(** Extra X2.  When the first leaf the engine reaches carries
    [optimizer_hook] and is not a key of the dictionary, [backward]
    raises [KeyError] out of the hook: the gradient of that leaf has
    been accumulated and stays, no optimizer has stepped, and the
    leaves that come after it receive nothing.  The second [train]
    raises with it. *)
Theorem backward_key_error_stops_the_pass p g rest hs w t :
  tensors w !! p = Some t → post_acc_hooks t = OptimizerHook :: hs →
  optimizer_dict w !! p = None →
  ∃ w', backward ((p, g) :: rest) w = Raise KeyError w' ∧
    tensors w' = alter (add_grad g) p (tensors w) ∧
    optims w' = optims w ∧
    trace w' = trace w ++ [EvBackward; EvAccumulate p; EvGetItem p] ∧
    (∀ model, autograd (rand_src (rng_pos w)) (data <$> tensors w) = (p, g) :: rest →
       ∃ w'', train_fused model w = Raise KeyError w'' ∧
              tensors w'' = alter (add_grad g) p (tensors w)).
Proof.
  intros Ht Hh Hd.
  assert (∀ w0, tensors w0 = tensors w → optimizer_dict w0 = optimizer_dict w →
    engine ((p, g) :: rest) w0 =
      Raise KeyError (log_event (EvGetItem p)
        (set_tensors (alter (add_grad g) p) (log_event (EvAccumulate p) w0)))) as Heng.
  { intros w0 Et0 Ed0. simpl engine.
    unfold accumulate_grad, emit, modify, get.
    unfold bind at 1. unfold bind at 1. simpl.
    unfold bind at 1. unfold bind at 1.
    set (w1 := set_tensors (alter (add_grad g) p) (log_event (EvAccumulate p) w0)).
    assert (hooks_of w1 p = OptimizerHook :: hs) as ->.
    { subst w1. rewrite hooks_of_add_grad. unfold hooks_of. simpl. by rewrite Et0, Ht. }
    simpl run_hooks. unfold bind at 1.
    rewrite (optimizer_hook_missing p w1); [done|]. subst w1. simpl. by rewrite Ed0. }
  eexists. split.
  { unfold backward, bind at 1, emit, modify. by apply Heng. }
  simpl. split; [done|]. split; [done|]. split; [by rewrite <- !app_assoc|].
  intros model Hg. eexists. split.
  { rewrite train_fused_unfold, Hg. by apply Heng. }
  done.
Qed.

Lemma foldl_step_param_idle o ps w :
  (∀ p t, p ∈ ps → tensors w !! p = Some t → grad t = None) →
  foldl (step_param o) w ps = w.
Proof.
  induction ps as [|p ps IH]; intros Hn; simpl; [done|].
  assert (step_param o w p = w) as ->.
  { unfold step_param.
    destruct (optims w !! o) as [opt|]; [|done].
    destruct (tensors w !! p) as [t|] eqn:Et; [|done].
    rewrite (Hn p t); [done|by left|done]. }
  apply IH. intros q t Hq. apply Hn. by right.
Qed.

Lemma hook_effect_twice o w :
  tensors (hook_effect o (hook_effect o w)) = tensors (hook_effect o w) ∧
  optims (hook_effect o (hook_effect o w)) = optims (hook_effect o w).
Proof.
  set (w1 := hook_effect o w).
  assert (params_of w1 o = params_of w o) as Hp by apply params_of_hook_effect.
  assert (∀ q, q ∈ params_of w o →
            tensors w1 !! q = clear_grad <$> tensors (step_world o w) !! q) as Hat.
  { intros q Hq. subst w1. unfold hook_effect, zero_grad_world. simpl.
    rewrite params_of_step_world. by apply foldl_clear_at. }
  assert (step_world o w1 = w1) as Hs.
  { unfold step_world. rewrite Hp. apply foldl_step_param_idle.
    intros q t Hq Ht. rewrite (Hat q Hq) in Ht.
    destruct (tensors (step_world o w) !! q) as [t0|]; [|done].
    injection Ht as <-. done. }
  clearbody w1. unfold hook_effect. rewrite Hs. split; [|done].
  unfold zero_grad_world. simpl. rewrite Hp.
  apply map_eq. intros q. destruct (decide (q ∈ params_of w o)) as [Hq|Hq].
  - rewrite (foldl_clear_at _ _ q Hq), (Hat q Hq). apply clear_grad_idemp.
  - by rewrite (foldl_clear_other _ _ q Hq).
Qed.

Lemma hook_effect_log_events es o w :
  hook_effect o (log_events es w) = log_events es (hook_effect o w).
Proof. unfold hook_effect. by rewrite step_world_log_events, zero_grad_world_log_events. Qed.

(** Extra X3.  A second call of the hook on the same parameter, with
    no backward pass in between, changes no tensor and no optimizer:
    [zero_grad] has left no gradient, so [step] skips the parameter.
    The engine's run of a hook list that holds the hook twice ends in
    that second store. *)
Theorem optimizer_hook_idempotent p o w :
  optimizer_dict w !! p = Some o →
  ∃ w1 w2, optimizer_hook p w = Ok tt w1 ∧ optimizer_hook p w1 = Ok tt w2 ∧
    tensors w2 = tensors w1 ∧ optims w2 = optims w1 ∧
    run_hooks [OptimizerHook; OptimizerHook] p w = Ok tt w2.
Proof.
  intros Hd.
  pose proof (optimizer_hook_found p o w Hd) as H1.
  set (w1 := log_events _ _) in H1.
  assert (optimizer_dict w1 !! p = Some o) as Hd1.
  { subst w1. by rewrite dict_log_events, (proj1 (hook_effect_frame o w)). }
  pose proof (optimizer_hook_found p o w1 Hd1) as H2.
  eexists w1, _. split; [exact H1|]. split; [exact H2|].
  assert (∀ A B C : Prop, A ∧ B → C → A ∧ B ∧ C) as Hj by tauto.
  apply Hj.
  - rewrite tensors_log_events, optims_log_events. subst w1.
    rewrite hook_effect_log_events, tensors_log_events, optims_log_events.
    apply hook_effect_twice.
  - simpl run_hooks. by rewrite (bind_Ok _ _ _ _ _ H1), (bind_Ok _ _ _ _ _ H2).
Qed.


End HookEdges.

(** ** Which optimizers there are *)
Section Roster.
Context `{T : Torch}.

Lemma roster_lookup w o :
  roster w !! o = (λ a, (params a, foreach a)) <$> optims w !! o.
Proof. unfold roster. apply lookup_fmap. Qed.



Lemma roster_step_param o w p : roster (step_param o w p) = roster w.
Proof.
  unfold step_param.
  destruct (optims w !! o) as [opt|] eqn:Eo; [|done].
  destruct (tensors w !! p) as [t|]; [|done].
  destruct (grad t); [|done].
  apply map_eq. intros o'. rewrite !roster_lookup. simpl.
  destruct (decide (o = o')) as [<-|Hne].
  - by rewrite lookup_insert_eq, Eo.
  - by rewrite lookup_insert_ne.
Qed.

Lemma roster_step_world o w : roster (step_world o w) = roster w.
Proof.
  unfold step_world. generalize (params_of w o). intros ps.
  revert w. induction ps as [|p ps IH]; intros w; simpl; [done|].
  by rewrite IH, roster_step_param.
Qed.

Lemma keeps_roster_optimizer_hook p : keeps roster (optimizer_hook p).
Proof.
  unfold optimizer_hook. apply keeps_bind; [|intros _].
  - apply keeps_bind; [by apply keeps_getitem|intros o].
    unfold Adam_step. apply keeps_bind; [by apply keeps_emit|intros _].
    apply keeps_modify. intros w. apply roster_step_world.
  - apply keeps_bind; [by apply keeps_getitem|intros o].
    unfold Adam_zero_grad. apply keeps_bind; [by apply keeps_emit|intros _].
    by apply keeps_modify.
Qed.

Lemma keeps_roster_engine graph : keeps roster (engine graph).
Proof.
  induction graph as [|[p g] rest IH]; simpl; [apply keeps_ret|].
  apply keeps_bind; [|intros _].
  { unfold accumulate_grad. apply keeps_bind; [by apply keeps_emit|intros _].
    by apply keeps_modify. }
  apply keeps_bind; [|by intros _].
  apply keeps_bind; [apply keeps_get|intros w].
  induction (hooks_of w p) as [|[] hs IHhs]; simpl; [apply keeps_ret|].
  apply keeps_bind; [apply keeps_roster_optimizer_hook|by intros _].
Qed.

Lemma keeps_roster_train_fused model : keeps roster (train_fused model).
Proof.
  unfold train_fused.
  apply keeps_bind; [by apply keeps_torch_rand|intros b].
  apply keeps_bind; [by apply keeps_forward|intros loss].
  unfold backward. apply keeps_bind; [by apply keeps_emit|intros _].
  apply keeps_roster_engine.
Qed.

Lemma keeps_roster_train model optimizer : keeps roster (train model optimizer).
Proof.
  unfold train.
  apply keeps_bind; [by apply keeps_torch_rand|intros b].
  apply keeps_bind; [by apply keeps_forward|intros loss].
  apply keeps_bind; [|intros _].
  { unfold backward. apply keeps_bind; [by apply keeps_emit|intros _].
    apply keeps_roster_engine. }
  apply keeps_bind; [|intros _].
  - unfold Adam_step. apply keeps_bind; [by apply keeps_emit|intros _].
    apply keeps_modify. intros w. apply roster_step_world.
  - unfold Adam_zero_grad. apply keeps_bind; [by apply keeps_emit|intros _].
    by apply keeps_modify.
Qed.

(** Extra X5.  However it ends, no number of iterations of either
    [train] changes which tensors require a gradient, which hooks a
    tensor carries, which optimizers exist, or the parameter list and
    [foreach] setting of an optimizer. *)
Theorem training_keeps_shape_and_roster model optimizer n w :
  shape (final (for_range n (train model optimizer) w)) = shape w ∧
  roster (final (for_range n (train model optimizer) w)) = roster w ∧
  shape (final (for_range n (train_fused model) w)) = shape w ∧
  roster (final (for_range n (train_fused model) w)) = roster w.
Proof.
  repeat split.
  - apply keeps_for_range, keeps_shape_train.
  - apply keeps_for_range, keeps_roster_train.
  - apply keeps_for_range, keeps_shape_train_fused.
  - apply keeps_for_range, keeps_roster_train_fused.
Qed.

End Roster.

(** ** The fused loop on a prepared store *)
Section FusedLoop.
Context `{T : Torch}.

Lemma backward_fused model loss w :
  fused_ready model w → NoDup loss.*1 → (∀ p, p ∈ loss.*1 → p ∈ model) →
  ∃ w', backward loss w = Ok tt w' ∧
    fused_ready model w' ∧
    rng_pos w' = rng_pos w ∧
    (∀ q, q ∉ loss.*1 → tensors w' !! q = tensors w !! q) ∧
    (∀ q, q ∈ model → q ∉ loss.*1 → dedicated_state w' q = dedicated_state w q) ∧
    (∀ p g t, (p, g) ∈ loss → tensors w !! p = Some t →
       tensors w' !! p = Some (updated (dedicated_state w p) (accumulated (grad t) g) t)).
Proof.
  intros Hready Hnd Hsub.
  assert (fused_ready model (log_event EvBackward w)) as Hready1.
  { by apply (fused_ready_ext model w). }
  destruct (engine_fused model loss Hnd Hsub _ Hready1)
    as (w' & Hrun & Hready' & _ & Hrng & Hoth & Hsoth & Hdel).
  exists w'. split; [exact Hrun|]. split; [done|]. split; [done|].
  split; [done|]. split; [done|].
  intros p g t Hin Ht. by destruct (Hdel p g t Hin Ht).
Qed.

(** Extra X6.  In a store prepared by lines 175-184, a parameter to
    which the backward pass delivers no gradient is left as it was:
    its hook does not run, so its values, its gradient and the state
    its optimizer holds for it do not change. *)
Theorem fused_backward_skips_unused model loss w q :
  fused_ready model w → NoDup loss.*1 → (∀ p, p ∈ loss.*1 → p ∈ model) →
  q ∈ model → q ∉ loss.*1 →
  ∃ w', backward loss w = Ok tt w' ∧
    tensors w' !! q = tensors w !! q ∧
    dedicated_state w' q = dedicated_state w q.
Proof.
  intros Hready Hnd Hsub Hqm Hq.
  destruct (backward_fused model loss w Hready Hnd Hsub)
    as (w' & Hrun & _ & _ & Hoth & Hsoth & _).
  exists w'. split; [done|]. split; [by apply Hoth|by apply Hsoth].
Qed.



End FusedLoop.

(** ** Line 175 and the optimizers already there *)
Section Line175.
Context `{T : Torch}.

Lemma dict_comprehension_fresh (old : gmap OId Adam) ps :
  ∀ d w,
  (∀ o a, old !! o = Some a → optims w !! o = Some a) →
  (∀ p o, d !! p = Some o →
     old !! o = None ∧ optims w !! o = Some (mkAdam [p] (Some false) ∅)) →
  ∃ d' w', dict_comprehension ps d w = Ok d' w' ∧
    tensors w' = tensors w ∧
    (∀ o a, old !! o = Some a → optims w' !! o = Some a) ∧
    (∀ p o, d' !! p = Some o →
       old !! o = None ∧ optims w' !! o = Some (mkAdam [p] (Some false) ∅)) ∧
    size (optims w') = size (optims w) + length ps.
Proof.
  induction ps as [|p ps IH]; intros d w Hold Hnew.
  - exists d, w. split; [done|]. split; [done|]. split; [done|]. split; [done|].
    simpl. lia.
  - simpl dict_comprehension.
    rewrite (bind_Ok _ _ _ _ _ (Adam_new_singleton p (Some false) w)).
    set (o := fresh (dom (optims w))).
    set (w1 := log_event _ _).
    pose proof (fresh_optim_unbound w) as Hfresh. fold o in Hfresh.
    assert (optims w1 = <[o := mkAdam [p] (Some false) ∅]> (optims w)) as Eo by done.
    destruct (IH (<[p := o]> d) w1) as (d' & w' & Hrun & Et & Hold' & Hnew' & Hsize).
    + intros o' a Ho'. rewrite Eo, lookup_insert_ne; [by apply Hold|].
      intros <-. apply Hold in Ho'. congruence.
    + intros p' o' Hl. rewrite Eo. destruct (decide (p = p')) as [<-|Hne].
      * rewrite lookup_insert_eq in Hl. injection Hl as <-.
        rewrite lookup_insert_eq. split; [|done].
        destruct (old !! o) as [a|] eqn:Ea; [|done]. apply Hold in Ea. congruence.
      * rewrite lookup_insert_ne in Hl by done.
        destruct (Hnew p' o' Hl) as [Hn Hs]. split; [done|].
        rewrite lookup_insert_ne; [done|]. intros <-. congruence.
    + exists d', w'. split; [exact Hrun|]. split; [done|]. split; [done|]. split; [done|].
      rewrite Hsize, Eo, map_size_insert_None by done. simpl. lia.
Qed.

(** Extra X8.  Line 175 makes one new optimizer for each element that
    [model.parameters()] yields and touches nothing else: no tensor
    changes, every optimizer that was there before (the shared one
    among them) is as it was, and each optimizer the dictionary holds
    is a new one, over its key alone, made with [foreach=False] and
    with no state, so the fused loop starts from Adam's initial state
    and not from what the shared optimizer had learnt. *)
Theorem build_optimizer_dict_fresh model w :
  ∃ w', build_optimizer_dict model w = Ok tt w' ∧
    tensors w' = tensors w ∧
    (∀ o a, optims w !! o = Some a → optims w' !! o = Some a) ∧
    (∀ p o, optimizer_dict w' !! p = Some o →
       optims w !! o = None ∧ optims w' !! o = Some (mkAdam [p] (Some false) ∅)) ∧
    size (optims w') = size (optims w) + length model.
Proof.
  destruct (dict_comprehension_fresh (optims w) model ∅ w)
    as (d' & w' & Hrun & Et & Hold & Hnew & Hsize).
  { done. }
  { intros p o Hl. by rewrite lookup_empty in Hl. }
  exists (set_optimizer_dict d' w'). unfold build_optimizer_dict.
  rewrite (bind_Ok _ _ _ _ _ Hrun). done.
Qed.


End Line175.

Section KeepsBuild.
Context `{T : Torch} {X : Type} (f : World → X).
Hypothesis f_log : ∀ e w, f (log_event e w) = f w.
Hypothesis f_optims : ∀ g w, f (set_optims g w) = f w.
Hypothesis f_dict : ∀ d w, f (set_optimizer_dict d w) = f w.



End KeepsBuild.

(** ** The files of the two windows *)
Section Files.
Context `{T : Torch}.

Lemma keeps_file_window (body : M unit) name file :
  file ≠ name →
  keeps (λ w, files w !! file) body →
  keeps (λ w, files w !! file)
    (bind (record_memory_history (Some "all"))
       (λ _, bind body (λ _, bind (bind snapshot (λ s, dump s name))
         (λ _, record_memory_history None)))).
Proof.
  intros Hne Hb.
  apply keeps_bind; [by apply keeps_record_memory_history|intros _].
  apply keeps_bind; [done|intros _].
  apply keeps_bind; [|intros _; by apply keeps_record_memory_history].
  apply keeps_bind; [by apply keeps_snapshot|intros s].
  unfold dump. apply keeps_bind; [by apply keeps_emit|intros _].
  apply keeps_modify. intros w. simpl. by rewrite lookup_insert_ne.
Qed.

(** Extra X9.  However it ends, the first window writes no file but
    [snapshot.pickle] and the second none but
    [snapshot-opt-in-bwd.pickle]: every other file is as it was, so
    the second snapshot does not replace the first. *)
Theorem windows_write_one_file model optimizer file w :
  (file ≠ "snapshot.pickle"%string →
   files (final (baseline_window model optimizer w)) !! file = files w !! file) ∧
  (file ≠ "snapshot-opt-in-bwd.pickle"%string →
   files (final (fused_window model w)) !! file = files w !! file).
Proof.
  split; intros Hne.
  - apply (keeps_file_window (for_range 3 (train model optimizer)) "snapshot.pickle" file Hne).
    apply keeps_for_range. by apply keeps_train.
  - apply (keeps_file_window (for_range 3 (train_fused model))
             "snapshot-opt-in-bwd.pickle" file Hne).
    apply keeps_for_range. by apply keeps_train_fused.
Qed.

End Files.

(** ** The script from beginning to end *)
Section WholeScript.
Context `{T : Torch}.












End WholeScript.

(** ** The further properties on the small instance *)


Lemma backward_key_error_stops_the_pass_witness :
  ∃ w', backward (T := Demo.torch) [(1, 5%Z); (2, 7%Z)] Edge.w_hooked_only
          = Raise KeyError w' ∧
    tensors w' = alter (add_grad (T := Demo.torch) 5%Z) 1 (tensors Edge.w_hooked_only) ∧
    optims w' = optims Edge.w_hooked_only.
Proof.
  destruct (backward_key_error_stops_the_pass (T := Demo.torch) 1 5%Z [(2, 7%Z)] []
              Edge.w_hooked_only (mkTensor (T := Demo.torch) 10%Z None true [OptimizerHook]))
    as (w' & Hrun & Ht & Ho & _).
  - vm_compute. reflexivity.
  - reflexivity.
  - vm_compute. reflexivity.
  - exists w'. split; [exact Hrun|]. split; [exact Ht|exact Ho].
Defined.

Lemma optimizer_hook_idempotent_witness :
  ∃ w1 w2, optimizer_hook (T := Demo.torch) 1 Demo.w_fused = Ok tt w1 ∧
    optimizer_hook (T := Demo.torch) 1 w1 = Ok tt w2 ∧
    tensors w2 = tensors w1 ∧ optims w2 = optims w1 ∧
    run_hooks (T := Demo.torch) [OptimizerHook; OptimizerHook] 1 Demo.w_fused = Ok tt w2.
Proof.
  apply (optimizer_hook_idempotent (T := Demo.torch) 1 0 Demo.w_fused).
  vm_compute. reflexivity.
Defined.


Lemma fused_ready_demo : fused_ready (T := Demo.torch) Demo.model Demo.w_fused.
Proof.
  apply (fused_setup_ready Demo.model Demo.w0).
  - unfold Demo.model. repeat constructor; set_solver.
  - intros p _. apply no_hooks_hooks_of. apply (bool_decide_unpack _). vm_compute. exact I.
  - vm_compute. reflexivity.
Defined.

Lemma fused_backward_skips_unused_witness :
  ∃ w', backward (T := Demo.torch) [(2, 5%Z)] Demo.w_fused = Ok tt w' ∧
    tensors w' !! 1 = tensors Demo.w_fused !! 1 ∧
    dedicated_state w' 1 = dedicated_state Demo.w_fused 1.
Proof.
  apply (fused_backward_skips_unused (T := Demo.torch) Demo.model [(2, 5%Z)] Demo.w_fused 1).
  - exact fused_ready_demo.
  - simpl. repeat constructor; set_solver.
  - intros p. simpl. unfold Demo.model. set_solver.
  - unfold Demo.model. set_solver.
  - simpl. set_solver.
Defined.


Lemma windows_write_one_file_witness :
  files (final (fused_window (T := Demo.torch) Demo.model Demo.w_fused))
    !! "snapshot.pickle"%string
  = files Demo.w_fused !! "snapshot.pickle"%string.
Proof.
  destruct (windows_write_one_file (T := Demo.torch) Demo.model 0
              "snapshot.pickle"%string Demo.w_fused) as [_ H].
  apply H. discriminate.
Defined.


